(** * Contact-extraction pipeline of influencer-finder.py

    A shallow embedding of the [InfluencerFinder] class: Python strings,
    the [re] patterns of the pattern library and their backtracking
    matcher, the display-name derivation, the extractor and the
    orchestrator loop, followed by the properties of each. *)

From Stdlib Require Import ZArith NArith Lia.
From Stdlib Require Import Strings.String Strings.Ascii.
From Stdlib Require Import Numbers.DecimalString.
From stdpp Require Import base option list gmap.

Local Open Scope N_scope.
Local Open Scope list_scope.
Local Open Scope nat_scope.

(** ** Python strings

    A [str] is a sequence of Unicode code points.  The full-width
    separators of [_extract_company_name] and the Unicode whitespace that
    [str.strip] removes live outside ASCII, so code points (not bytes)
    are the unit. *)

Abbreviation char := N (only parsing).
Abbreviation str := (list N) (only parsing).

(** An ASCII literal of the source, as code points. *)
Definition pystr (s : string) : str :=
  map N_of_ascii (list_ascii_of_string s).

Module Str.

(** [s.startswith(pre)] *)
Fixpoint startswith (s pre : str) {struct pre} : bool :=
  match pre, s with
  | [], _ => true
  | p :: pre', c :: s' => (c =? p)%N && startswith s' pre'
  | _ :: _, [] => false
  end.

(** [sub in s] *)
Fixpoint contains (sub s : str) : bool :=
  startswith s sub ||
  match s with
  | [] => false
  | _ :: s' => contains sub s'
  end.

(** [s.split(sep)] for a non-empty [sep] (Python raises [ValueError] on
    an empty one; every call in the source passes a one-character
    literal).  [skip] counts the characters of a separator occurrence
    still to be dropped. *)
Fixpoint split_from (sep : str) (skip : nat) (s : str) : list str :=
  match s with
  | [] => [[]]
  | c :: s' =>
    match skip with
    | S n => split_from sep n s'
    | O =>
      if startswith s sep
      then [] :: split_from sep (length sep - 1) s'
      else match split_from sep 0 s' with
           | seg :: segs => (c :: seg) :: segs
           | [] => [[c]]
           end
    end
  end.

Definition split (s sep : str) : list str := split_from sep 0 s.

(** [c.isspace()]: the code points CPython's [_PyUnicode_IsWhitespace]
    accepts. *)
Definition isspace (c : char) : bool :=
  ((9 <=? c) && (c <=? 13) || (28 <=? c) && (c <=? 32)
   || (c =? 133) || (c =? 160) || (c =? 5760)
   || (8192 <=? c) && (c <=? 8202)
   || (c =? 8232) || (c =? 8233) || (c =? 8239) || (c =? 8287)
   || (c =? 12288))%N.

Fixpoint lstrip (s : str) : str :=
  match s with
  | c :: s' => if isspace c then lstrip s' else s
  | [] => []
  end.

Fixpoint rstrip (s : str) : str :=
  match s with
  | [] => []
  | c :: s' => if forallb isspace s then [] else c :: rstrip s'
  end.

(** [s.strip()] *)
Definition strip (s : str) : str := rstrip (lstrip s).

(** Truthiness of a string: [if s:] *)
Definition truthy (s : str) : bool :=
  match s with [] => false | _ :: _ => true end.

End Str.

(** ** Display-name derivation: [_extract_company_name] *)

(** [separators = ['|', '-', ':', '：', '／', '/', '｜']] (the fourth,
    fifth and seventh are U+FF1A, U+FF0F and U+FF5C). *)
Definition separators : list str :=
  [pystr "|"; pystr "-"; pystr ":"; [65306%N]; [65295%N]; pystr "/"; [65372%N]].

(** One round of the loop body:
    [if sep in company_name: company_name = company_name.split(sep)[0].strip()] *)
Definition split_round (company_name sep : str) : str :=
  if Str.contains sep company_name
  then Str.strip (hd [] (Str.split company_name sep))
  else company_name.

Definition _extract_company_name (title : str) : str :=
  fold_left split_round separators title.

(** The words of the specification: the segment left of the first
    separator character, and whether a title holds a separator at all. *)
Definition is_separator (c : char) : bool :=
  bool_decide ([c] ∈ separators).

Fixpoint before_first (p : char -> bool) (s : str) : str :=
  match s with
  | [] => []
  | c :: s' => if p c then [] else c :: before_first p s'
  end.

Definition leftmost_segment (title : str) : str :=
  before_first is_separator title.

Definition has_separator (title : str) : bool :=
  existsb is_separator title.

(** ** The pattern library: [re] patterns and their matcher

    The patterns of the source use literals, greedy repetition of one
    character class, optional groups and alternation; nothing captures,
    so [findall] returns whole matches. *)

Inductive regex : Type :=
| Lit (l : str)                       (* a literal run of characters *)
| Rep (p : char -> bool) (lo : nat)   (* [[class]{lo,}], greedy *)
| Opt (r : regex)                     (* [(?:r)?], greedy *)
| Alt (r1 r2 : regex)                 (* [(?:r1|r2)] *)
| Seq (r1 r2 : regex).

Declare Scope re_scope.
Delimit Scope re_scope with re.
Bind Scope re_scope with regex.
Infix "⋅" := Seq (at level 60, right associativity) : re_scope.

(** The backtracking matcher, in continuation-passing style: [k] is what
    remains of the pattern, tried on what remains of the text; on failure
    control returns to the latest choice point, as in [sre]. *)
Section Matcher.
Context {A : Type}.

Fixpoint lit_match (l s : str) (k : str -> option A) : option A :=
  match l, s with
  | [], _ => k s
  | c :: l', d :: s' => if (c =? d)%N then lit_match l' s' k else None
  | _ :: _, [] => None
  end.

Fixpoint rep_match (p : char -> bool) (lo : nat) (s : str)
         (k : str -> option A) : option A :=
  let stop := match lo with O => k s | S _ => None end in
  match s with
  | c :: s' =>
    if p c
    then match rep_match p (pred lo) s' k with
         | Some a => Some a
         | None => stop
         end
    else stop
  | [] => stop
  end.

Fixpoint re_match (r : regex) (s : str) (k : str -> option A) : option A :=
  match r with
  | Lit l => lit_match l s k
  | Rep p lo => rep_match p lo s k
  | Opt r1 =>
    match re_match r1 s k with
    | Some a => Some a
    | None => k s
    end
  | Alt r1 r2 =>
    match re_match r1 s k with
    | Some a => Some a
    | None => re_match r2 s k
    end
  | Seq r1 r2 => re_match r1 s (fun s' => re_match r2 s' k)
  end.
End Matcher.

(** [pattern.match(s)]: the matched prefix of [s], if any. *)
Definition match_prefix (r : regex) (s : str) : option str :=
  re_match r s (fun rest => Some (take (length s - length rest) s)).

(** [pattern.findall(s)]: the non-overlapping matches, scanning from the
    left; after a match the scan resumes at its end ([skip] counts the
    characters of the last match still to be passed). *)
Fixpoint findall_from (r : regex) (skip : nat) (s : str) : list str :=
  match s with
  | [] =>
    match skip, match_prefix r [] with
    | O, Some m => [m]
    | _, _ => []
    end
  | _ :: s' =>
    match skip with
    | S n => findall_from r n s'
    | O =>
      match match_prefix r s with
      | Some m => m :: findall_from r (length m - 1) s'
      | None => findall_from r 0 s'
      end
    end
  end.

Definition findall (r : regex) (s : str) : list str := findall_from r 0 s.

(** Character classes of the patterns. *)
Definition in_range (lo hi : string) (c : char) : bool :=
  match pystr lo, pystr hi with
  | [a], [b] => ((a <=? c) && (c <=? b))%N
  | _, _ => false
  end.

Definition one_of (chars : string) (c : char) : bool :=
  existsb (N.eqb c) (pystr chars).

Definition alpha (c : char) : bool := in_range "a" "z" c || in_range "A" "Z" c.
Definition alnum (c : char) : bool := alpha c || in_range "0" "9" c.

(** [[a-zA-Z0-9._%+-]] *)
Definition cls_local (c : char) : bool := alnum c || one_of "._%+-" c.
(** [[a-zA-Z0-9.-]] *)
Definition cls_domain (c : char) : bool := alnum c || one_of ".-" c.
(** [[a-zA-Z0-9_.]] *)
Definition cls_handle (c : char) : bool := alnum c || one_of "_." c.
(** [[a-zA-Z0-9_-]] *)
Definition cls_channel (c : char) : bool := alnum c || one_of "_-" c.
(** [[a-zA-Z0-9_]] *)
Definition cls_word (c : char) : bool := alnum c || one_of "_" c.
(** [[a-zA-Z0-9.]] *)
Definition cls_dotted (c : char) : bool := alnum c || one_of "." c.

Definition lit (s : string) : regex := Lit (pystr s).

(** [self.email_pattern]:
    [[a-zA-Z0-9._%+-]+@[a-zA-Z0-9.-]+\.[a-zA-Z]{2,}] *)
Definition email_pattern : regex :=
  (Rep cls_local 1 ⋅ lit "@" ⋅ Rep cls_domain 1 ⋅ lit "." ⋅ Rep alpha 2)%re.

(** [https?://(?:www\.)?] *)
Definition scheme_www (rest : regex) : regex :=
  (lit "http" ⋅ Opt (lit "s") ⋅ lit "://" ⋅ Opt (lit "www.") ⋅ rest)%re.

Definition instagram_tail : regex :=
  (lit "instagram.com/" ⋅ Rep cls_handle 1 ⋅ Opt (lit "/"))%re.
Definition tiktok_tail : regex :=
  (lit "tiktok.com/@" ⋅ Rep cls_handle 1 ⋅ Opt (lit "/"))%re.
Definition youtube_channel_tail : regex :=
  (lit "youtube.com/" ⋅ Alt (lit "channel") (Alt (lit "user") (lit "c"))
   ⋅ lit "/" ⋅ Rep cls_channel 1 ⋅ Opt (lit "/"))%re.
Definition youtube_handle_tail : regex :=
  (lit "youtube.com/@" ⋅ Rep cls_channel 1 ⋅ Opt (lit "/"))%re.
Definition x_twitter_tail : regex :=
  (Alt (lit "twitter") (lit "x") ⋅ lit ".com/" ⋅ Rep cls_word 1
   ⋅ Opt (lit "/"))%re.
Definition facebook_tail : regex :=
  (lit "facebook.com/" ⋅ Rep cls_dotted 1 ⋅ Opt (lit "/"))%re.

(** [self.sns_patterns]: a dict literal, iterated in insertion order. *)
Definition sns_patterns : list (str * list regex) :=
  [ (pystr "instagram", [scheme_www instagram_tail; instagram_tail]);
    (pystr "tiktok", [scheme_www tiktok_tail; tiktok_tail]);
    (pystr "youtube",
       [scheme_www youtube_channel_tail; scheme_www youtube_handle_tail;
        youtube_channel_tail; youtube_handle_tail]);
    (pystr "x_twitter", [scheme_www x_twitter_tail; x_twitter_tail]);
    (pystr "facebook", [scheme_www facebook_tail; facebook_tail]) ].

(** ** Dictionaries

    A candidate record ([result]) is an arbitrary [Dict[str, Any]] read
    and written by key: a finite map.  The [sns_urls] dictionaries are
    dict literals that the extractor iterates with [.items()], so their
    insertion order is kept: an association list whose [set] overwrites
    in place and appends a new key at the end. *)

Module Dict.

Definition t : Type := list (str * str).

(** [d[k] = v] *)
Fixpoint set (d : t) (k v : str) : t :=
  match d with
  | [] => [(k, v)]
  | (k', v') :: d' =>
    if bool_decide (k' = k) then (k', v) :: d' else (k', v') :: set d' k v
  end.

(** [d[k]] *)
Fixpoint get (d : t) (k : str) : option str :=
  match d with
  | [] => None
  | (k', v') :: d' => if bool_decide (k' = k) then Some v' else get d' k
  end.

(** [d.update(other)] *)
Definition update (d other : t) : t :=
  fold_left (fun acc kv => set acc kv.1 kv.2) other d.

End Dict.

(** The dict literal both scanners start from. *)
Definition empty_sns_urls : Dict.t :=
  [ (pystr "instagram", []); (pystr "tiktok", []); (pystr "youtube", []);
    (pystr "x", []); (pystr "facebook", []) ].

(** ** [_extract_emails]

    [list(set(emails))] enumerates the distinct matches in the iteration
    order of a Python set, which the language leaves unspecified (it
    varies with the per-process string hash seed).  A [set_order] is one
    such enumeration. *)
Record set_order : Type := {
  set_iter :> list str -> list str;
  set_iter_perm : ∀ l, set_iter l ≡ₚ remove_dups l
}.

Definition _extract_emails (order : set_order) (text : str) : list str :=
  if negb (Str.truthy text) then []
  else order (findall email_pattern text).

(** Two enumerations: first-seen order, and its reverse. *)
Definition first_seen_order : set_order :=
  {| set_iter := remove_dups; set_iter_perm := λ l, reflexivity _ |}.

Definition last_seen_order : set_order :=
  {| set_iter := λ l, reverse (remove_dups l);
     set_iter_perm := λ l, reverse_Permutation (remove_dups l) |}.

(** ** [_extract_sns_urls] *)

(** The inner [for pattern in patterns] loop, left at the first pattern
    with a match ([break]). *)
Fixpoint scan_patterns (sns_type : str) (patterns : list regex) (text : str)
         (sns_urls : Dict.t) : Dict.t :=
  match patterns with
  | [] => sns_urls
  | pattern :: patterns' =>
    match findall pattern text with
    | matches0 :: _ =>
      let url :=
        if Str.startswith matches0 (pystr "http") then matches0
        else pystr "https://" ++ matches0 in
      if bool_decide (sns_type = pystr "x_twitter")
      then Dict.set sns_urls (pystr "x") url
      else Dict.set sns_urls sns_type url
    | [] => scan_patterns sns_type patterns' text sns_urls
    end
  end.

Definition _extract_sns_urls (text : str) : Dict.t :=
  fold_left
    (fun sns_urls entry => scan_patterns entry.1 entry.2 text sns_urls)
    sns_patterns empty_sns_urls.

(** ** [_extract_sns_urls_from_links] *)

(** The [if]/[elif] chain applied to one anchor's [href]. *)
Definition classify_link (sns_urls : Dict.t) (href : str) : Dict.t :=
  if Str.contains (pystr "instagram.com") href
  then Dict.set sns_urls (pystr "instagram") href
  else if Str.contains (pystr "tiktok.com") href
  then Dict.set sns_urls (pystr "tiktok") href
  else if Str.contains (pystr "youtube.com") href
          || Str.contains (pystr "youtu.be") href
  then Dict.set sns_urls (pystr "youtube") href
  else if Str.contains (pystr "twitter.com") href
          || Str.contains (pystr "x.com") href
  then Dict.set sns_urls (pystr "x") href
  else if Str.contains (pystr "facebook.com") href
  then Dict.set sns_urls (pystr "facebook") href
  else sns_urls.

(** [links] are the [href] values of [soup.find_all('a', href=True)], in
    document order. *)
Definition _extract_sns_urls_from_links (links : list str) : Dict.t :=
  fold_left classify_link links empty_sns_urls.

(** ** [extract_contact_info] *)

(** What the parsed response offers the extractor: [soup.get_text()] once
    [script] and [style] are removed, [response.text], and the anchors'
    [href]s. *)
Record page : Type := {
  text : str;
  html_source : str;
  links : list str
}.

(** The outcome of the [try] block up to the parsed page: any exception
    raised there (timeout, connection error, [raise_for_status], a bad
    charset) reaches [except Exception]. *)
Inductive response : Type :=
| Failed
| Fetched (pg : page).

(** [result.get(key, '')] *)
Definition get_or_empty (result : gmap str str) (key : str) : str :=
  default [] (result !! key).

(** The final loop, [for sns_type, url in sns_urls.items()]. *)
Definition store_sns_url (result : gmap str str) (item : str * str)
  : gmap str str :=
  if Str.truthy item.2
  then <[item.1 ++ pystr "_url" := item.2]> result
  else result.

Definition extract_contact_info (order : set_order) (get : str -> response)
           (result : gmap str str) : gmap str str :=
  let url := get_or_empty result (pystr "website_url") in
  if negb (Str.truthy url) then result
  else
    match get url with
    | Failed => result
    | Fetched pg =>
      let emails :=
        _extract_emails order (text pg)
        ++ _extract_emails order (html_source pg) in
      let result :=
        match emails with
        | emails0 :: _ => <[pystr "email" := emails0]> result
        | [] => result
        end in
      let sns_urls :=
        Dict.update (_extract_sns_urls (html_source pg))
                    (_extract_sns_urls_from_links (links pg)) in
      fold_left store_sns_url sns_urls result
    end.

(** ** [process_search_results] *)

(** [l[:stop]] for a Python integer [stop]. *)
Definition slice_to {A : Type} (l : list A) (stop : Z) : list A :=
  if (0 <=? stop)%Z then take (Z.to_nat stop) l
  else take (Z.to_nat (Z.of_nat (length l) + stop)) l.

(** The loop either returns its list or leaves through the [KeyError] of
    [result['title']] in the status line, the one subscript outside a
    [try].  Progress display and pacing ([st.*], [time.sleep]) do not
    touch the records; the fraction handed to [st.progress],
    [(i + 1) / min(len(results), max_pages_to_scan)], lies in (0, 1]
    whenever [max_pages_to_scan] is not negative. *)
Inductive outcome (A : Type) : Type :=
| Returned (a : A)
| KeyError (key : str).
Arguments Returned {A} a.
Arguments KeyError {A} key.

(** What the loop body appends for one candidate:
    [extract_contact_info(result.copy())] when [result.get('website_url')]
    is truthy, [result] itself otherwise. *)
Definition scan_candidate (order : set_order) (get : str -> response)
           (result : gmap str str) : gmap str str :=
  if Str.truthy (get_or_empty result (pystr "website_url"))
  then extract_contact_info order get result
  else result.

(** [fetch i url] is the response to the request issued while the
    candidate at position [i] is processed. *)
Fixpoint process_loop (order : set_order) (fetch : nat -> str -> response)
         (i : nat) (todo : list (gmap str str))
         (processed_results : list (gmap str str))
  : outcome (list (gmap str str)) :=
  match todo with
  | [] => Returned processed_results
  | result :: todo' =>
    match result !! pystr "title" with
    | None => KeyError (pystr "title")
    | Some _ =>
      process_loop order fetch (S i) todo'
                   (processed_results ++ [scan_candidate order (fetch i) result])
    end
  end.

Definition process_search_results (order : set_order)
           (fetch : nat -> str -> response)
           (results : list (gmap str str)) (max_pages_to_scan : Z)
  : outcome (list (gmap str str)) :=
  process_loop order fetch 0 (slice_to results max_pages_to_scan) [].

(** The record [search_google] builds for one search hit. *)
Definition formatted_result (title link snippet : str) : gmap str str :=
  list_to_map
    [ (pystr "company_name", _extract_company_name title);
      (pystr "website_url", link);
      (pystr "title", title);
      (pystr "snippet", snippet);
      (pystr "instagram_url", []);
      (pystr "tiktok_url", []);
      (pystr "youtube_url", []);
      (pystr "x_url", []);
      (pystr "facebook_url", []);
      (pystr "email", []);
      (pystr "source", pystr "Google Search") ].

(** ** [search_google]

    [build(...)] and each [service.cse().list(q, cx, start).execute()]
    are the outside world.  A call either raises or returns the response
    dict, which may or may not hold an ['items'] list; the query and the
    credentials are fixed for a run, so a call is told apart by its
    [start] index. *)
Inductive api_response : Type :=
| ApiError
| ApiResult (items : option (list (gmap str str))).

(** The record built for one item of [all_results]. *)
Definition format_item (item : gmap str str) : gmap str str :=
  formatted_result (get_or_empty item (pystr "title"))
                   (get_or_empty item (pystr "link"))
                   (get_or_empty item (pystr "snippet")).

(** The paging loop [for page in range(pages)], [pages_left] iterations
    from index [page] on.  [requests] logs the [start] index of every
    call made; the second component is [None] when a call raised. *)
Fixpoint collect_pages (execute : Z -> api_response) (pages_left : nat)
         (page : Z) (all_results : list (gmap str str)) (requests : list Z)
  : list Z * option (list (gmap str str)) :=
  match pages_left with
  | O => (requests, Some all_results)
  | S pages_left' =>
    let start_index := (page * 10 + 1)%Z in
    match execute start_index with
    | ApiError => (requests ++ [start_index], None)
    | ApiResult None => (requests ++ [start_index], Some all_results)
    | ApiResult (Some items) =>
      collect_pages execute pages_left' (page + 1)
                    (all_results ++ items) (requests ++ [start_index])
    end
  end.

(** [service] is [None] when [build(...)] raises.  Any exception ends in
    [except Exception] and the function returns [[]]. *)
Definition search_google_run (service : option (Z -> api_response))
           (num_results : Z) : list Z * list (gmap str str) :=
  match service with
  | None => ([], [])
  | Some execute =>
    let pages := ((num_results + 9) / 10)%Z in
    match collect_pages execute (Z.to_nat pages) 0 [] [] with
    | (requests, None) => (requests, [])
    | (requests, Some all_results) =>
      (requests, format_item <$> slice_to all_results num_results)
    end
  end.

(** What [search_google] returns, and the calls it makes on the way. *)
Definition search_google (service : option (Z -> api_response))
           (num_results : Z) : list (gmap str str) :=
  (search_google_run service num_results).2.

Definition search_requests (service : option (Z -> api_response))
           (num_results : Z) : list Z :=
  (search_google_run service num_results).1.

(** ** The result filters of [main] *)

(** [[item for item in filtered_results if item.get(key)]] *)
Definition keep_if (key : str) (filtered_results : list (gmap str str))
  : list (gmap str str) :=
  List.filter (λ item, Str.truthy (get_or_empty item key)) filtered_results.

(** The four checkboxes, applied in the order of the source. *)
Definition apply_filters
           (filter_instagram filter_tiktok filter_youtube filter_email : bool)
           (search_results : list (gmap str str)) : list (gmap str str) :=
  let filtered_results := search_results in
  let filtered_results :=
    if filter_instagram
    then keep_if (pystr "instagram_url") filtered_results
    else filtered_results in
  let filtered_results :=
    if filter_tiktok
    then keep_if (pystr "tiktok_url") filtered_results
    else filtered_results in
  let filtered_results :=
    if filter_youtube
    then keep_if (pystr "youtube_url") filtered_results
    else filtered_results in
  if filter_email
  then keep_if (pystr "email") filtered_results
  else filtered_results.

(** ** The export projection

    [export_to_csv] and [export_to_google_spreadsheet] both start from
    [filtered_data]: per record, the dict comprehension
    [{col: item.get(col, '') for col in columns}]. *)
Definition columns : list str :=
  [ pystr "company_name"; pystr "website_url"; pystr "instagram_url";
    pystr "tiktok_url"; pystr "youtube_url"; pystr "x_url";
    pystr "facebook_url"; pystr "email" ].

Definition filtered_item (item : gmap str str) : Dict.t :=
  fold_left (λ d col, Dict.set d col (get_or_empty item col)) columns [].

Definition filtered_data (data : list (gmap str str)) : list Dict.t :=
  filtered_item <$> data.

(** ** The sidebar of [main]

    [st.session_state.api_keys] after the sidebar has run with the three
    inputs; [json_loads_ok s] tells whether [json.loads(s)] returns. *)
Definition sidebar (json_loads_ok : str -> bool) (api_keys : gmap str str)
           (google_api_key google_cx service_account_json : str)
  : gmap str str :=
  let api_keys :=
    if Str.truthy google_api_key && Str.truthy google_cx
    then <[pystr "google_cx" := google_cx]>
           (<[pystr "google_api_key" := google_api_key]> api_keys)
    else api_keys in
  if Str.truthy service_account_json
  then if json_loads_ok service_account_json
       then <[pystr "google_service_account" := service_account_json]> api_keys
       else api_keys
  else api_keys.

(** ** The detail view of [main]

    [result[key]] raises [KeyError] on a missing key; the first one ends
    the script run. *)
Definition subscript (result : gmap str str) (key : str) : outcome str :=
  match result !! key with
  | Some value => Returned value
  | None => KeyError key
  end.

Definition and_then {A B : Type} (x : outcome A) (f : A -> outcome B)
  : outcome B :=
  match x with
  | Returned a => f a
  | KeyError key => KeyError key
  end.

(** [str(n)] for a natural number. *)
Definition str_of_nat (n : nat) : str :=
  pystr (NilZero.string_of_uint (Nat.to_uint n)).

(** [f"**{label}:** [{url}]({url})"], shown when [result.get(key)] is
    truthy. *)
Definition link_line (result : gmap str str) (label key : str) : list str :=
  let url := get_or_empty result key in
  if Str.truthy url
  then [pystr "**" ++ label ++ pystr ":** [" ++ url ++ pystr "](" ++ url
        ++ pystr ")"]
  else [].

(** One pass of [for i, result in enumerate(filtered_results)]: the
    expander label, then the markdown lines in the order written. *)
Definition detail_view (i : nat) (result : gmap str str)
  : outcome (list str) :=
  and_then (subscript result (pystr "company_name")) (λ company_name,
  and_then (subscript result (pystr "title")) (λ title,
  and_then (subscript result (pystr "snippet")) (λ snippet,
  and_then (subscript result (pystr "website_url")) (λ website_url,
    Returned
      ([ str_of_nat (i + 1) ++ pystr ". " ++ company_name;
         [42; 42; 12479; 12452; 12488; 12523; 58; 42; 42; 32]%N ++ title;
         [42; 42; 27010; 35201; 58; 42; 42; 32]%N ++ snippet;
         [42; 42; 12454; 12455; 12502; 12469; 12452; 12488; 58; 42; 42; 32;
          91]%N ++ website_url ++ pystr "](" ++ website_url ++ pystr ")" ]
       ++ link_line result (pystr "Instagram") (pystr "instagram_url")
       ++ link_line result (pystr "TikTok") (pystr "tiktok_url")
       ++ link_line result (pystr "YouTube") (pystr "youtube_url")
       ++ link_line result (pystr "X (Twitter)") (pystr "x_url")
       ++ link_line result (pystr "Facebook") (pystr "facebook_url")
       ++ (if Str.truthy (get_or_empty result (pystr "email"))
           then [[42; 42; 12513; 12540; 12523; 58; 42; 42; 32]%N
                 ++ get_or_empty result (pystr "email")]
           else [])))))).

Fixpoint detail_views (i : nat) (filtered_results : list (gmap str str))
  : outcome (list (list str)) :=
  match filtered_results with
  | [] => Returned []
  | result :: rest =>
    and_then (detail_view i result) (λ view,
    and_then (detail_views (S i) rest) (λ views, Returned (view :: views)))
  end.

(** ** [export_to_google_spreadsheet]

    The calls into [tempfile], [json], [google.oauth2], [gspread] and
    [os] are the outside world: each returns or raises, [worksheet] and
    [clear] possibly with [WorksheetNotFound]. *)
Inductive call_result : Type :=
| Done
| RaisesNotFound
| Raises.

Record sheet_world : Type := {
  tempfile_created : bool;      (* [NamedTemporaryFile(...)] returns *)
  json_loaded : bool;           (* [json.loads(service_account_json)] *)
  json_dumped : bool;           (* [json.dump(..., temp)] *)
  credentials_read : bool;      (* [Credentials.from_service_account_file] *)
  authorized : bool;            (* [gspread.authorize] *)
  unlinked : bool;              (* [os.unlink(temp_path)] *)
  opened : bool;                (* [gc.open_by_key(spreadsheet_id)] *)
  worksheet_found : call_result;(* [spreadsheet.worksheet(sheet_name)] *)
  cleared : call_result;        (* [worksheet.clear()] *)
  worksheet_added : bool;       (* [spreadsheet.add_worksheet(...)] *)
  updated : bool                (* [worksheet.update(...)] *)
}.

(** The calls made on the spreadsheet, in order; [Update] carries the
    [filtered_data] the frame was built from. *)
Inductive sheet_call : Type :=
| Clear
| AddWorksheet (rows cols : Z)
| Update (rows : list Dict.t).

(** What a run leaves behind: the returned flag, whether the temporary
    credentials file (created with [delete=False]) is still on disk, and
    the calls made on the spreadsheet. *)
Record export_result : Type := {
  returned : bool;
  tempfile_left : bool;
  sheet_calls : list sheet_call
}.

Definition write_frame (w : sheet_world) (data : list (gmap str str))
           (calls : list sheet_call) : export_result :=
  {| returned := updated w;
     tempfile_left := false;
     sheet_calls := calls ++ [Update (filtered_data data)] |}.

Definition add_sheet (w : sheet_world) (data : list (gmap str str))
           (calls : list sheet_call) : export_result :=
  if worksheet_added w
  then write_frame w data (calls ++ [AddWorksheet 1000 20])
  else {| returned := false; tempfile_left := false;
          sheet_calls := calls ++ [AddWorksheet 1000 20] |}.

Definition export_to_google_spreadsheet (w : sheet_world)
           (data : list (gmap str str)) : export_result :=
  if negb (tempfile_created w)
  then {| returned := false; tempfile_left := false; sheet_calls := [] |}
  else if negb (json_loaded w && json_dumped w
                && credentials_read w && authorized w && unlinked w)
  then {| returned := false; tempfile_left := true; sheet_calls := [] |}
  else if negb (opened w)
  then {| returned := false; tempfile_left := false; sheet_calls := [] |}
  else
    match worksheet_found w with
    | Done =>
      match cleared w with
      | Done => write_frame w data [Clear]
      | RaisesNotFound => add_sheet w data [Clear]
      | Raises => {| returned := false; tempfile_left := false;
                     sheet_calls := [Clear] |}
      end
    | RaisesNotFound => add_sheet w data []
    | Raises => {| returned := false; tempfile_left := false;
                   sheet_calls := [] |}
    end.

(** ** One run of [main]

    Streamlit runs the script from top to bottom on every interaction;
    [st.session_state] is what survives from one run to the next. *)
Record session : Type := {
  search_results : list (gmap str str);
  filtered_results : list (gmap str str);
  api_keys : gmap str str;
  csv_filename : str
}.

(** The initialisation at the top of the script. *)
Definition initial_session : session :=
  {| search_results := [];
     filtered_results := [];
     api_keys := ∅;
     csv_filename := pystr "influencer_contacts.csv" |}.

(** What one run receives: the values of the widgets, and the answers of
    the outside world during the run ([build] for a query and the stored
    credentials, the page fetcher, the set order). *)
Record run_input : Type := {
  google_api_key_input : str;
  google_cx_input : str;
  service_account_json_input : str;
  search_keywords : str;
  num_results_input : Z;
  search_categories : list str;
  search_pressed : bool;
  filter_instagram_box : bool;
  filter_tiktok_box : bool;
  filter_youtube_box : bool;
  filter_email_box : bool;
  csv_filename_input : str;
  build_service : str -> str -> str -> option (Z -> api_response);
  run_order : set_order;
  run_fetch : nat -> str -> response
}.

(** [sep.join(parts)] *)
Fixpoint str_join (sep : str) (parts : list str) : str :=
  match parts with
  | [] => []
  | part :: parts' =>
    match parts' with
    | [] => part
    | _ :: _ => part ++ sep ++ str_join sep parts'
    end
  end.

(** The search query: the keywords, followed by the chosen categories. *)
Definition build_query (keywords : str) (categories : list str) : str :=
  match categories with
  | [] => keywords
  | _ :: _ => keywords ++ pystr " " ++ str_join (pystr " ") categories
  end.

(** The search tab: the body of [if st.button(...)]. *)
Definition search_tab (input : run_input) (state : session)
  : outcome session :=
  if negb (search_pressed input) then Returned state
  else if negb (Str.truthy (search_keywords input)) then Returned state
  else if negb (bool_decide (is_Some (api_keys state !! pystr "google_api_key"))
                && bool_decide (is_Some (api_keys state !! pystr "google_cx")))
  then Returned state
  else
    let query := build_query (search_keywords input) (search_categories input) in
    let results :=
      search_google
        (build_service input query
           (get_or_empty (api_keys state) (pystr "google_api_key"))
           (get_or_empty (api_keys state) (pystr "google_cx")))
        (num_results_input input) in
    match results with
    | [] => Returned state
    | _ :: _ =>
      and_then
        (process_search_results (run_order input) (run_fetch input) results
                                (num_results_input input))
        (λ processed_results,
         Returned {| search_results := processed_results;
                     filtered_results := processed_results;
                     api_keys := api_keys state;
                     csv_filename := csv_filename state |})
    end.

(** The results tab: the filters, then the table and the detail view. *)
Definition results_tab (input : run_input) (state : session)
  : outcome session :=
  match search_results state with
  | [] => Returned state
  | _ :: _ =>
    let filtered :=
      apply_filters (filter_instagram_box input) (filter_tiktok_box input)
                    (filter_youtube_box input) (filter_email_box input)
                    (search_results state) in
    let state' :=
      {| search_results := search_results state;
         filtered_results := filtered;
         api_keys := api_keys state;
         csv_filename := csv_filename state |} in
    match filtered with
    | [] => Returned state'
    | _ :: _ => and_then (detail_views 0 filtered) (λ _, Returned state')
    end
  end.

(** The export tab; the two export functions catch their own exceptions
    and write nothing to the session. *)
Definition export_tab (input : run_input) (state : session) : session :=
  match filtered_results state with
  | [] => state
  | _ :: _ =>
    {| search_results := search_results state;
       filtered_results := filtered_results state;
       api_keys := api_keys state;
       csv_filename := csv_filename_input input |}
  end.

Definition run_main (json_loads_ok : str -> bool) (input : run_input)
           (state : session) : outcome session :=
  let state :=
    {| search_results := search_results state;
       filtered_results := filtered_results state;
       api_keys := sidebar json_loads_ok (api_keys state)
                           (google_api_key_input input)
                           (google_cx_input input)
                           (service_account_json_input input);
       csv_filename := csv_filename state |} in
  and_then (search_tab input state) (λ state,
  and_then (results_tab input state) (λ state,
  Returned (export_tab input state))).

(** Successive runs, each on the session the previous one left. *)
Fixpoint run_session (json_loads_ok : str -> bool) (inputs : list run_input)
         (state : session) : outcome session :=
  match inputs with
  | [] => Returned state
  | input :: inputs' =>
    and_then (run_main json_loads_ok input state)
             (run_session json_loads_ok inputs')
  end.

(** ** Reference notions for the properties *)

(** The strings a pattern denotes, independently of the matcher. *)
Fixpoint lang (r : regex) (m : str) : Prop :=
  match r with
  | Lit l => m = l
  | Rep p lo => lo ≤ length m ∧ forallb p m = true
  | Opt r1 => m = [] ∨ lang r1 m
  | Alt r1 r2 => lang r1 m ∨ lang r2 m
  | Seq r1 r2 => ∃ m1 m2, m = m1 ++ m2 ∧ lang r1 m1 ∧ lang r2 m2
  end.

(** The canonical email syntax [local@domain.tld]: a non-empty local part
    over [[a-zA-Z0-9._%+-]], a non-empty domain over [[a-zA-Z0-9.-]], a
    dot, and at least two letters. *)
Definition email_of (local domain tld : str) : str :=
  local ++ pystr "@" ++ domain ++ pystr "." ++ tld.

Definition email_parts (local domain tld : str) : Prop :=
  local ≠ [] ∧ forallb cls_local local = true
  ∧ domain ≠ [] ∧ forallb cls_domain domain = true
  ∧ 2 ≤ length tld ∧ forallb alpha tld = true.

Definition valid_email (e : str) : Prop :=
  ∃ local domain tld, e = email_of local domain tld
                      ∧ email_parts local domain tld.

(** [s] occurs in [text]. *)
Definition substring (s text : str) : Prop :=
  ∃ before after, text = before ++ s ++ after.

(** The keys of an [sns_urls] dictionary, in insertion order. *)
Definition sns_keys : list str := empty_sns_urls.*1.

Definition has_sns_keys (d : Dict.t) : Prop := d.*1 = sns_keys.

(** The key [_extract_sns_urls] writes for an entry of [sns_patterns],
    and the URL it stores for a match. *)
Definition output_key (sns_type : str) : str :=
  if bool_decide (sns_type = pystr "x_twitter") then pystr "x" else sns_type.

Definition with_scheme (url : str) : str :=
  if Str.startswith url (pystr "http") then url else pystr "https://" ++ url.

(** The first match of the first pattern, in list order, that matches at
    all. *)
Fixpoint first_match (patterns : list regex) (text : str) : option str :=
  match patterns with
  | [] => None
  | pattern :: patterns' =>
    match findall pattern text with
    | m :: _ => Some m
    | [] => first_match patterns' text
    end
  end.

(** Per output key, the bare-domain forms of the platform's patterns; the
    protocol-qualified forms are these behind [https?://(?:www\.)?]. *)
Definition platform_tails : list (str * list regex) :=
  [ (pystr "instagram", [instagram_tail]);
    (pystr "tiktok", [tiktok_tail]);
    (pystr "youtube", [youtube_channel_tail; youtube_handle_tail]);
    (pystr "x", [x_twitter_tail]);
    (pystr "facebook", [facebook_tail]) ].

(** Per output key, the domain substrings the anchor scan looks for, in
    the order of its [elif] chain; an anchor is attributed to the first
    platform one of whose domains occurs in its [href]. *)
Definition platform_domains : list (str * list str) :=
  [ (pystr "instagram", [pystr "instagram.com"]);
    (pystr "tiktok", [pystr "tiktok.com"]);
    (pystr "youtube", [pystr "youtube.com"; pystr "youtu.be"]);
    (pystr "x", [pystr "twitter.com"; pystr "x.com"]);
    (pystr "facebook", [pystr "facebook.com"]) ].

Definition mentions (domains : list str) (href : str) : bool :=
  existsb (λ domain, Str.contains domain href) domains.

Fixpoint attribution (table : list (str * list str)) (href : str)
  : option str :=
  match table with
  | [] => None
  | (key, domains) :: table' =>
    if mentions domains href then Some key else attribution table' href
  end.

(** The contact-signal fields of a record, and its display fields. *)
Definition signal_keys : list str :=
  [ pystr "email"; pystr "instagram_url"; pystr "tiktok_url";
    pystr "youtube_url"; pystr "x_url"; pystr "facebook_url" ].

Definition display_keys : list str :=
  [ pystr "title"; pystr "website_url"; pystr "snippet";
    pystr "company_name" ].

Definition has_title (result : gmap str str) : bool :=
  bool_decide (is_Some (result !! pystr "title")).

(** Whether a record passes the checked filters. *)
Definition passes
           (filter_instagram filter_tiktok filter_youtube filter_email : bool)
           (item : gmap str str) : bool :=
  implb filter_instagram (Str.truthy (get_or_empty item (pystr "instagram_url")))
  && implb filter_tiktok (Str.truthy (get_or_empty item (pystr "tiktok_url")))
  && implb filter_youtube (Str.truthy (get_or_empty item (pystr "youtube_url")))
  && implb filter_email (Str.truthy (get_or_empty item (pystr "email"))).

(** The stored credentials are usable: the API key and the engine id are
    stored together and non-empty, and a stored service account is text
    that [json.loads] accepts. *)
Definition api_keys_ok (json_loads_ok : str -> bool)
           (api_keys : gmap str str) : Prop :=
  (is_Some (api_keys !! pystr "google_api_key")
   ↔ is_Some (api_keys !! pystr "google_cx"))
  ∧ api_keys !! pystr "google_api_key" ≠ Some []
  ∧ api_keys !! pystr "google_cx" ≠ Some []
  ∧ ∀ json, api_keys !! pystr "google_service_account" = Some json →
            json ≠ [] ∧ json_loads_ok json = true.

(** What every run of [main] keeps true of the session. *)
Definition session_ok (json_loads_ok : str -> bool) (state : session) : Prop :=
  api_keys_ok json_loads_ok (api_keys state)
  ∧ filtered_results state `sublist_of` search_results state
  ∧ Forall (λ result, Forall (λ key, is_Some (result !! key)) display_keys)
           (search_results state).

(** * Properties *)

(** Source literals are evaluated to their code points before
    reasoning by cases on characters. *)
Ltac literals :=
  repeat match goal with
         | |- context [pystr ?s] =>
           let v := eval vm_compute in (pystr s) in change (pystr s) with v
         | H : context [pystr ?s] |- _ =>
           let v := eval vm_compute in (pystr s) in
           change (pystr s) with v in H
         end.

(** ** The embedding on sample inputs *)

Example split_sample :
  Str.split (pystr "a-b--c") (pystr "-") = [pystr "a"; pystr "b"; []; pystr "c"]
  ∧ Str.split (pystr "no separator") (pystr "|") = [pystr "no separator"].
Proof. split; reflexivity. Qed.

Example strip_sample :
  Str.strip ([12288%N] ++ pystr "  Acme Corp " ++ [10%N]) = pystr "Acme Corp".
Proof. reflexivity. Qed.

Example slice_to_sample :
  slice_to [1; 2; 3] 2 = [1; 2] ∧ slice_to [1; 2; 3] 7 = [1; 2; 3]
  ∧ slice_to [1; 2; 3] (-1) = [1; 2] ∧ slice_to [1; 2; 3] (-7) = [].
Proof. repeat split; reflexivity. Qed.

Example findall_email_sample :
  findall email_pattern (pystr "mail a.b@c-d.co.jp, or <x_y%z@q.io>; not p@q.r")
  = [pystr "a.b@c-d.co.jp"; pystr "x_y%z@q.io"].
Proof. vm_compute. reflexivity. Qed.

Example findall_profile_sample :
  findall (scheme_www youtube_channel_tail)
          (pystr "see http://www.youtube.com/channel/UC_x-1/ and youtube.com/c/b")
  = [pystr "http://www.youtube.com/channel/UC_x-1/"]
  ∧ findall x_twitter_tail (pystr "on x.com/acme_jp and twitter.com/acme")
    = [pystr "x.com/acme_jp"; pystr "twitter.com/acme"].
Proof. split; vm_compute; reflexivity. Qed.

(** ** Strings *)

Section StrFacts.
Import Str.

Lemma contains_char (c : char) (s : str) :
  contains [c] s = existsb (λ d, d =? c)%N s.
Proof.
  induction s as [|d s IH]; [reflexivity|].
  cbn [contains startswith existsb]. rewrite IH.
  now rewrite andb_true_r.
Qed.

Lemma split_char_hd (c : char) (s : str) :
  hd [] (split s [c]) = before_first (λ d, d =? c)%N s.
Proof.
  unfold split. induction s as [|d s IH]; [reflexivity|].
  cbn [split_from startswith before_first length Nat.sub].
  rewrite andb_true_r. destruct (d =? c)%N; [reflexivity|].
  destruct (split_from [c] 0 s); cbn in *; congruence.
Qed.

Lemma before_first_none (p : char → bool) (s : str) :
  existsb p s = false → before_first p s = s.
Proof.
  induction s as [|c s IH]; cbn; [done|].
  destruct (p c); cbn; [done|]. intros H. now rewrite IH.
Qed.

Lemma before_first_clean (p : char → bool) (s : str) :
  existsb p (before_first p s) = false.
Proof.
  induction s as [|c s IH]; cbn; [done|].
  destruct (p c) eqn:E; cbn; [done|]. now rewrite E.
Qed.

Lemma before_first_twice (p q : char → bool) (s : str) :
  before_first q (before_first p s)
  = before_first (λ c, p c || q c) s.
Proof.
  induction s as [|c s IH]; cbn; [done|].
  destruct (p c); cbn; [done|]. destruct (q c); [done|]. now rewrite IH.
Qed.

Lemma before_first_ext (p q : char → bool) (s : str) :
  (∀ c, p c = q c) → before_first p s = before_first q s.
Proof.
  intros E. induction s as [|c s IH]; cbn; [done|].
  rewrite E, IH. reflexivity.
Qed.

Lemma existsb_ext (p q : char → bool) (s : str) :
  (∀ c, p c = q c) → existsb p s = existsb q s.
Proof.
  intros E. induction s as [|c s IH]; cbn; [done|]. now rewrite E, IH.
Qed.

Lemma existsb_or_skip (p q : char → bool) (s : str) :
  existsb p s = false → existsb (λ c, p c || q c) s = existsb q s.
Proof.
  induction s as [|c s IH]; cbn; [done|].
  intros [-> Hs]%orb_false_iff. now rewrite IH.
Qed.

Lemma before_first_or_skip (p q : char → bool) (s : str) :
  existsb p s = false →
  before_first (λ c, p c || q c) s = before_first q s.
Proof.
  induction s as [|c s IH]; cbn; [done|].
  intros [-> Hs]%orb_false_iff. cbn. now rewrite IH.
Qed.

Lemma existsb_lstrip (q : char → bool) (s : str) :
  existsb q s = false → existsb q (lstrip s) = false.
Proof.
  induction s as [|c s IH]; cbn; [done|].
  intros H. destruct (isspace c); [|exact H].
  apply orb_false_iff in H as [_ H]. now apply IH.
Qed.

Lemma existsb_rstrip (q : char → bool) (s : str) :
  existsb q s = false → existsb q (rstrip s) = false.
Proof.
  induction s as [|c s IH]; [done|].
  intros H. cbn [rstrip]. destruct (forallb isspace (c :: s)); [done|].
  cbn in *. apply orb_false_iff in H as [Hc H]. now rewrite Hc, IH.
Qed.

Lemma existsb_strip (q : char → bool) (s : str) :
  existsb q s = false → existsb q (strip s) = false.
Proof. intros H. now apply existsb_rstrip, existsb_lstrip. Qed.

Lemma rstrip_nil (s : str) :
  rstrip s = [] ↔ forallb isspace s = true.
Proof.
  destruct s as [|c s]; [done|]. cbn [rstrip].
  destruct (forallb isspace (c :: s)); split; done.
Qed.

Lemma lstrip_idem (s : str) : lstrip (lstrip s) = lstrip s.
Proof.
  induction s as [|c s IH]; cbn; [done|].
  destruct (isspace c) eqn:E; [done|]. cbn. now rewrite E.
Qed.

Lemma lstrip_rstrip (s : str) : lstrip (rstrip s) = rstrip (lstrip s).
Proof.
  induction s as [|c s IH]; [done|].
  cbn [rstrip lstrip]. destruct (isspace c) eqn:E.
  - cbn [forallb]. rewrite E. cbn [andb].
    destruct (forallb isspace s) eqn:F.
    + cbn. symmetry. apply rstrip_nil.
      clear -F. induction s as [|d s IH]; cbn in *; [done|].
      apply andb_true_iff in F as [Hd F]. rewrite Hd. now apply IH.
    + cbn [lstrip]. now rewrite E.
  - cbn [forallb rstrip]. rewrite E. cbn [andb lstrip]. now rewrite E.
Qed.

(** Cutting at a character that is not whitespace commutes with
    stripping, up to a final strip. *)
Section Cut.
Variable p : char → bool.
Hypothesis p_not_space : ∀ c, p c = true → isspace c = false.

Lemma forallb_space_cut (s : str) :
  forallb isspace s = true → forallb isspace (before_first p s) = true.
Proof.
  induction s as [|c s IH]; cbn; [done|].
  intros [Hc Hs]%andb_true_iff. destruct (p c); cbn; [done|].
  now rewrite Hc, IH.
Qed.

Lemma rstrip_cut_rstrip (s : str) :
  rstrip (before_first p (rstrip s)) = rstrip (before_first p s).
Proof.
  induction s as [|c s IH]; [done|].
  cbn [rstrip]. destruct (forallb isspace (c :: s)) eqn:F.
  - symmetry. cbn [before_first rstrip]. apply rstrip_nil.
    now apply (forallb_space_cut (c :: s)).
  - cbn [before_first]. destruct (p c); [done|].
    cbn [rstrip forallb]. rewrite IH.
    destruct (isspace c); cbn [andb]; [|done].
    destruct (forallb isspace (before_first p (rstrip s))) eqn:G1,
             (forallb isspace (before_first p s)) eqn:G2; try done.
    + apply rstrip_nil in G1. rewrite IH in G1.
      apply rstrip_nil in G1. congruence.
    + apply rstrip_nil in G2. rewrite <- IH in G2.
      apply rstrip_nil in G2. congruence.
Qed.

Lemma lstrip_cut (s : str) :
  lstrip (before_first p s) = before_first p (lstrip s).
Proof.
  induction s as [|c s IH]; [done|].
  cbn [before_first lstrip].
  destruct (p c) eqn:P.
  - rewrite (p_not_space _ P). cbn. now rewrite P.
  - cbn [lstrip]. destruct (isspace c); [done|]. cbn. now rewrite P.
Qed.

Lemma strip_cut_strip (s : str) :
  strip (before_first p (strip s)) = strip (before_first p s).
Proof.
  unfold strip.
  rewrite lstrip_cut, lstrip_rstrip, lstrip_idem, rstrip_cut_rstrip.
  now rewrite lstrip_cut.
Qed.
End Cut.

Lemma existsb_never (s : str) : existsb (λ _ : N, false) s = false.
Proof. induction s; cbn; auto. Qed.

Lemma strip_idem (s : str) : strip (strip s) = strip s.
Proof.
  pose proof (strip_cut_strip (λ _, false)) as H.
  specialize (H (λ c E, False_ind _ (Bool.diff_false_true E)) s).
  now rewrite !before_first_none in H by apply existsb_never.
Qed.

End StrFacts.

(** ** Display names *)

Section CompanyName.
Import Str.

(** Every separator of the source is a single character. *)
Lemma separators_chars :
  separators = map (λ c, [c]) [124; 45; 58; 65306; 65295; 47; 65372]%N.
Proof. reflexivity. Qed.

Lemma single_elem_of (c : char) (cs : list char) :
  bool_decide ([c] ∈ map (λ x, [x]) cs) = existsb (N.eqb c) cs.
Proof.
  induction cs as [|x cs IH]; cbn [map existsb].
  - apply bool_decide_eq_false. apply not_elem_of_nil.
  - rewrite <- IH. destruct (N.eqb_spec c x) as [->|Hne]; cbn [orb].
    + apply bool_decide_eq_true. apply elem_of_cons. now left.
    + apply bool_decide_ext. rewrite elem_of_cons.
      split; [intros [E|E]; [congruence|exact E] | now right].
Qed.

Lemma split_round_char (name : str) (c : char) :
  split_round name [c]
  = if existsb (λ d, d =? c)%N name
    then strip (before_first (λ d, d =? c)%N name)
    else name.
Proof. unfold split_round. now rewrite contains_char, split_char_hd. Qed.

(** Once a round has stripped the name, each later round amounts to a
    cut followed by a strip, whether or not its separator occurs. *)
Lemma rounds_stripped (cs : list char) :
  Forall (λ c, isspace c = false) cs →
  ∀ x, fold_left split_round (map (λ c, [c]) cs) (strip x)
       = strip (before_first (λ d, existsb (N.eqb d) cs) x).
Proof.
  induction 1 as [|c cs Hc Hcs IH]; intros x.
  - cbn. now rewrite before_first_none by apply existsb_never.
  - cbn [map fold_left]. rewrite split_round_char.
    assert (Hp : ∀ d, (d =? c)%N = true → isspace d = false)
      by (intros d E; apply N.eqb_eq in E; now subst d).
    assert (E : (if existsb (λ d, d =? c)%N (strip x)
                 then strip (before_first (λ d, d =? c)%N (strip x))
                 else strip x)
                = strip (before_first (λ d, d =? c)%N x)).
    { rewrite <- (strip_cut_strip _ Hp x).
      destruct (existsb _ (strip x)) eqn:F; [done|].
      now rewrite before_first_none, strip_idem. }
    rewrite E, IH, before_first_twice. reflexivity.
Qed.

Lemma rounds_spec (cs : list char) :
  Forall (λ c, isspace c = false) cs →
  ∀ title,
    fold_left split_round (map (λ c, [c]) cs) title
    = if existsb (λ d, existsb (N.eqb d) cs) title
      then strip (before_first (λ d, existsb (N.eqb d) cs) title)
      else title.
Proof.
  induction 1 as [|c cs Hc Hcs IH]; intros title.
  - cbn. now rewrite existsb_never.
  - cbn [map fold_left]. rewrite split_round_char.
    destruct (existsb (λ d, d =? c)%N title) eqn:F.
    + rewrite rounds_stripped, before_first_twice by assumption.
      replace (existsb (λ d, existsb (N.eqb d) (c :: cs)) title) with true;
        [reflexivity|].
      symmetry. apply existsb_exists.
      apply existsb_exists in F as (d & Hd & E).
      exists d. split; [exact Hd|]. cbn. now rewrite E.
    + rewrite IH. cbn [existsb].
      rewrite existsb_or_skip, before_first_or_skip by exact F.
      reflexivity.
Qed.

Lemma is_separator_chars (c : char) :
  is_separator c
  = existsb (N.eqb c) [124; 45; 58; 65306; 65295; 47; 65372]%N.
Proof. unfold is_separator. rewrite separators_chars. apply single_elem_of. Qed.

(** What [_extract_company_name] computes, for every title. *)
Lemma company_name_cases (title : str) :
  _extract_company_name title
  = if has_separator title then strip (leftmost_segment title) else title.
Proof.
  unfold _extract_company_name, has_separator, leftmost_segment.
  rewrite separators_chars, rounds_spec.
  - rewrite <- (existsb_ext _ _ title is_separator_chars).
    now rewrite <- (before_first_ext _ _ title is_separator_chars).
  - repeat constructor.
Qed.

Lemma company_name_clean (title : str) :
  has_separator (_extract_company_name title) = false.
Proof.
  rewrite company_name_cases. destruct (has_separator title) eqn:F; [|done].
  apply existsb_strip, before_first_clean.
Qed.
End CompanyName.

(** C5 (as amended).  A title that holds a separator yields the segment
    left of its first separator character, stripped of surrounding
    whitespace; a title that holds none is returned exactly as given,
    whitespace included.  The title "Acme Corp | Home Page" yields
    "Acme Corp". *)
Theorem company_name_leftmost_segment :
  (∀ title,
      _extract_company_name title
      = if has_separator title
        then Str.strip (leftmost_segment title)
        else title)
  ∧ _extract_company_name (pystr "Acme Corp | Home Page") = pystr "Acme Corp".
Proof. split; [exact company_name_cases | reflexivity]. Qed.

(** C5 (as stated) fails: a title without any separator keeps its
    surrounding whitespace, because [strip] only runs inside the
    [if sep in company_name] guard. *)
Lemma company_name_untrimmed_without_separator :
  _extract_company_name (pystr "  Acme Corp ") = pystr "  Acme Corp "
  ∧ Str.strip (leftmost_segment (pystr "  Acme Corp ")) = pystr "Acme Corp"
  ∧ ¬ (∀ title,
          _extract_company_name title = Str.strip (leftmost_segment title)).
Proof.
  split; [reflexivity|]. split; [reflexivity|].
  intros H. specialize (H (pystr "  Acme Corp ")). discriminate H.
Qed.

(** C8.  [_extract_company_name] is idempotent: applied to its own output
    it returns that output unchanged. *)
Theorem company_name_idempotent (title : str) :
  _extract_company_name (_extract_company_name title)
  = _extract_company_name title.
Proof.
  rewrite (company_name_cases (_extract_company_name title)).
  now rewrite company_name_clean.
Qed.

(** ** The matcher *)

Section MatcherFacts.
Context {A : Type}.
Implicit Types (k : str → option A) (s m rest : str) (r : regex).

Lemma lit_match_sound l s k a :
  lit_match l s k = Some a → ∃ rest, s = l ++ rest ∧ k rest = Some a.
Proof.
  revert s. induction l as [|c l IH]; intros s; cbn.
  - intros H. now exists s.
  - destruct s as [|d s]; [done|].
    destruct (N.eqb_spec c d) as [->|]; [|done].
    intros (rest & -> & H)%IH. now exists rest.
Qed.

Lemma lit_match_app l rest k : lit_match l (l ++ rest) k = k rest.
Proof.
  induction l as [|c l IH]; cbn; [done|]. now rewrite N.eqb_refl.
Qed.

Lemma rep_match_sound p lo s k a :
  rep_match p lo s k = Some a →
  ∃ m rest, s = m ++ rest ∧ lo ≤ length m ∧ forallb p m = true
            ∧ k rest = Some a.
Proof.
  revert lo. induction s as [|c s IH]; intros lo; cbn.
  - destruct lo; [|done]. intros H. now exists [], [].
  - assert (Stop : match lo with 0 => k (c :: s) | S _ => None end = Some a →
                   ∃ m rest, c :: s = m ++ rest ∧ lo ≤ length m
                             ∧ forallb p m = true ∧ k rest = Some a).
    { destruct lo; [|done]. intros H. now exists [], (c :: s). }
    destruct (p c) eqn:P; [|exact Stop].
    destruct (rep_match p (pred lo) s k) as [b|] eqn:R; [|exact Stop].
    intros [= ->]. apply IH in R as (m & rest & -> & Hlo & Hp & Hk).
    exists (c :: m), rest. cbn. rewrite P, Hp. repeat split; [lia|done].
Qed.

Lemma re_match_sound r : ∀ s k a,
  re_match r s k = Some a →
  ∃ m rest, s = m ++ rest ∧ lang r m ∧ k rest = Some a.
Proof.
  induction r as [l|p lo|r IH|r1 IH1 r2 IH2|r1 IH1 r2 IH2];
    intros s k a; cbn [re_match lang].
  - intros (rest & -> & H)%lit_match_sound. now exists l, rest.
  - intros (m & rest & -> & ? & ? & ?)%rep_match_sound. now exists m, rest.
  - destruct (re_match r s k) as [b|] eqn:R.
    + intros [= ->]. apply IH in R as (m & rest & -> & ? & ?).
      exists m, rest. auto.
    + intros H. exists [], s. auto.
  - destruct (re_match r1 s k) as [b|] eqn:R.
    + intros [= ->]. apply IH1 in R as (m & rest & -> & ? & ?).
      exists m, rest. auto.
    + intros (m & rest & -> & ? & ?)%IH2. exists m, rest. auto.
  - intros (m1 & rest1 & -> & L1 & (m2 & rest & -> & L2 & H)%IH2)%IH1.
    exists (m1 ++ m2), rest. rewrite <- app_assoc. eauto 7.
Qed.

(** Greedy repetition: no continuation succeeds anywhere in the run. *)
Lemma rep_match_none p lo m rest k :
  forallb p m = true →
  (∀ c, head rest = Some c → p c = false) →
  (∀ m1 m2, m = m1 ++ m2 → k (m2 ++ rest) = None) →
  rep_match p lo (m ++ rest) k = None.
Proof.
  revert lo. induction m as [|c m IH]; intros lo Hp Hrest Hk.
  - cbn [app]. pose proof (Hk [] [] eq_refl) as K. cbn in K.
    destruct rest as [|c rest]; cbn; [now destruct lo|].
    rewrite (Hrest c eq_refl). now destruct lo.
  - cbn in Hp. apply andb_true_iff in Hp as [Pc Hp].
    cbn. rewrite Pc, IH; [| done | done |].
    + destruct lo; [|done]. exact (Hk [] (c :: m) eq_refl).
    + intros m1 m2 ->. exact (Hk (c :: m1) m2 eq_refl).
Qed.

(** Greedy repetition with backtracking: the longest split at which the
    continuation succeeds is the one taken. *)
Lemma rep_match_longest p lo m1 m2 rest k a :
  forallb p (m1 ++ m2) = true →
  (∀ c, head rest = Some c → p c = false) →
  lo ≤ length m1 →
  (∀ x y, m2 = x ++ y → x ≠ [] → k (y ++ rest) = None) →
  k (m2 ++ rest) = Some a →
  rep_match p lo (m1 ++ m2 ++ rest) k = Some a.
Proof.
  revert lo. induction m1 as [|c m1 IH]; intros lo Hp Hrest Hlo Hk Ha.
  - cbn in Hlo. assert (lo = 0) as -> by lia. cbn [app] in *.
    destruct m2 as [|c m2].
    + cbn [app] in *. destruct rest as [|c rest]; cbn; [done|].
      now rewrite (Hrest c eq_refl).
    + cbn in Hp. apply andb_true_iff in Hp as [Pc Hp].
      cbn. rewrite Pc, rep_match_none; [done..|].
      intros x y ->. now apply (Hk (c :: x) y).
  - cbn in Hp. apply andb_true_iff in Hp as [Pc Hp].
    cbn. rewrite Pc, (IH (pred lo)); [done..| |done|done].
    cbn in Hlo. lia.
Qed.
End MatcherFacts.

Lemma match_prefix_sound (r : regex) (s m : str) :
  match_prefix r s = Some m → ∃ rest, s = m ++ rest ∧ lang r m.
Proof.
  unfold match_prefix.
  intros (m' & rest & -> & L & [= <-])%re_match_sound.
  exists rest. rewrite length_app, Nat.add_sub, take_app_length. done.
Qed.

Lemma findall_from_sound (r : regex) (s : str) :
  ∀ skip m, m ∈ findall_from r skip s → substring m s ∧ lang r m.
Proof.
  induction s as [|c s IH]; intros skip m; cbn [findall_from].
  - destruct skip; [|by intros ?%elem_of_nil].
    destruct (match_prefix r []) as [m'|] eqn:M; [|by intros ?%elem_of_nil].
    intros ->%list_elem_of_singleton.
    apply match_prefix_sound in M as (rest & E & L).
    split; [|done]. now exists [], rest.
  - assert (Rec : ∀ n, m ∈ findall_from r n s → substring m (c :: s) ∧ lang r m).
    { intros n ((before & after & ->) & L)%IH. split; [|done].
      now exists (c :: before), after. }
    destruct skip; [|apply Rec].
    destruct (match_prefix r (c :: s)) as [m'|] eqn:M; [|apply Rec].
    intros [->|H]%elem_of_cons; [|now apply Rec in H].
    apply match_prefix_sound in M as (rest & E & L).
    split; [|done]. now exists [], rest.
Qed.

Lemma findall_sound (r : regex) (s m : str) :
  m ∈ findall r s → substring m s ∧ lang r m.
Proof. apply findall_from_sound. Qed.

(** A delimited occurrence is found by the scan: when every match of [r]
    consists of [q]-characters, the text before the occurrence ends with
    a character outside [q], and [r] matches exactly [e] at the
    occurrence, then [e] is among the matches. *)
Section Delimited.
Variables (r : regex) (q : char → bool).
Hypothesis match_chars : ∀ m, lang r m → forallb q m = true.

Lemma findall_from_delimited (e post : str) :
  e ≠ [] →
  match_prefix r (e ++ post) = Some e →
  ∀ pre skip,
    (∀ c, last pre = Some c → q c = false) →
    skip ≤ length pre →
    e ∈ findall_from r skip (pre ++ e ++ post).
Proof.
  intros Hne Hm. induction pre as [|a pre IH]; intros skip Hlast Hskip.
  - cbn in Hskip. assert (skip = 0) as -> by lia. cbn [app].
    destruct e as [|c e]; [done|]. cbn [app findall_from] in *.
    rewrite Hm. apply elem_of_cons. now left.
  - assert (Hlast' : ∀ c, last pre = Some c → q c = false).
    { intros c Hc. apply Hlast. destruct pre; [done|exact Hc]. }
    cbn [app findall_from]. destruct skip as [|skip].
    + destruct (match_prefix r (a :: pre ++ e ++ post)) as [m|] eqn:M.
      * apply elem_of_cons. right. apply IH; [exact Hlast'|].
        apply match_prefix_sound in M as (rest & E & L).
        apply match_chars in L.
        destruct (decide (length m ≤ S (length pre))) as [|Hlong]; [lia|].
        exfalso.
        assert (Hpre : take (S (length pre)) m = a :: pre).
        { change (a :: pre ++ e ++ post) with ((a :: pre) ++ e ++ post) in E.
          apply (f_equal (take (S (length pre)))) in E.
          rewrite (take_app_length (a :: pre)) in E.
          rewrite take_app_le in E by lia. done. }
        destruct (last (a :: pre)) as [c|] eqn:Hc.
        -- pose proof (Hlast c eq_refl) as Qc.
           assert (c ∈ m) as Hin.
           { apply last_Some_elem_of in Hc. rewrite <- Hpre in Hc.
             apply elem_of_take in Hc as (i & Hi & _).
             now apply list_elem_of_lookup_2 in Hi. }
           rewrite forallb_forall in L.
           apply list_elem_of_In, L in Hin. congruence.
        -- now apply last_None in Hc.
      * apply IH; [exact Hlast'|lia].
    + apply IH; [exact Hlast'|]. cbn in Hskip. lia.
Qed.
End Delimited.

(** ** The email pattern *)

Section EmailFacts.

Lemma alpha_domain (c : char) : alpha c = true → cls_domain c = true.
Proof. unfold cls_domain, alnum. now intros ->. Qed.

Lemma domain_local (c : char) : cls_domain c = true → cls_local c = true.
Proof.
  unfold cls_domain, cls_local, one_of. literals.
  destruct (alnum c); [done|]. cbn.
  repeat match goal with
         | |- context [(c =? ?n)%N] => destruct (c =? n)%N
         end; done.
Qed.

Lemma forallb_impl (p q : char → bool) (s : str) :
  (∀ c, p c = true → q c = true) →
  forallb p s = true → forallb q s = true.
Proof.
  intros I. induction s as [|c s IH]; cbn; [done|].
  intros [Hc Hs]%andb_true_iff. now rewrite (I c Hc), IH.
Qed.

Lemma email_pattern_lang (m : str) :
  lang email_pattern m → valid_email m.
Proof.
  intros (l & m1 & -> & [L1 L2] & at' & m2 & -> & -> & d & m3 & ->
          & [D1 D2] & dot & t & -> & -> & T1 & T2).
  exists l, d, t. split; [reflexivity|].
  repeat split; try done.
  - intros ->. cbn in L1. lia.
  - intros ->. cbn in D1. lia.
Qed.

Lemma valid_email_chars (e : str) :
  valid_email e → forallb (λ c, cls_local c || (c =? 64)%N) e = true.
Proof.
  intros (l & d & t & -> & _ & L & _ & D & _ & T). unfold email_of.
  rewrite !forallb_app. repeat (apply andb_true_iff; split); try done.
  - eapply forallb_impl; [|exact L]. now intros c ->.
  - eapply forallb_impl; [|exact D]. intros c H%domain_local. now rewrite H.
  - eapply forallb_impl; [|exact T].
    intros c H%alpha_domain%domain_local. now rewrite H.
Qed.

Lemma valid_email_nonempty (e : str) : valid_email e → e ≠ [].
Proof.
  intros (l & d & t & -> & Hl & _). unfold email_of.
  destruct l; [done|]. done.
Qed.

(** At the start of a well-formed address followed by a character that
    cannot continue a domain, the pattern matches the address, all of
    it and no more. *)
Lemma email_pattern_matches (l d t post : str) :
  email_parts l d t →
  (∀ c, head post = Some c → cls_domain c = false) →
  match_prefix email_pattern (email_of l d t ++ post)
  = Some (email_of l d t).
Proof.
  intros (Hl & L & Hd & D & Ht & T) Hpost.
  assert (Hpost' : ∀ c, head post = Some c → alpha c = false).
  { intros c Hc. specialize (Hpost c Hc).
    destruct (alpha c) eqn:E; [|done]. apply alpha_domain in E. congruence. }
  unfold match_prefix, email_pattern, lit, email_of. literals.
  set (k0 := λ rest : str, Some _). cbn [re_match].
  rewrite <- !app_assoc.
  apply (rep_match_longest cls_local 1 l []).
  - now rewrite app_nil_r.
  - now intros c [= <-].
  - destruct l; [done|]. cbn. lia.
  - intros x y E Hx. symmetry in E. apply app_eq_nil in E as [-> _]. done.
  - cbn [app lit_match]. rewrite N.eqb_refl.
    apply (rep_match_longest cls_domain 1 d (46%N :: t) post).
    + rewrite forallb_app, D. cbn [andb forallb app].
      apply andb_true_iff. split; [done|].
      eapply forallb_impl; [exact alpha_domain|exact T].
    + exact Hpost.
    + destruct d; [done|]. cbn. lia.
    + intros x y E Hx. destruct x as [|c x]; [done|].
      injection E as <- ->.
      destruct y as [|c y]; cbn [app].
      * destruct post as [|c post]; [done|]. cbn [lit_match].
        specialize (Hpost c eq_refl).
        destruct (N.eqb_spec 46 c) as [<-|]; [done|done].
      * cbn [lit_match].
        rewrite forallb_app in T. apply andb_true_iff in T as [_ T].
        cbn [forallb] in T. apply andb_true_iff in T as [T _].
        destruct (N.eqb_spec 46 c) as [<-|]; [done|done].
    + cbn [app lit_match]. rewrite N.eqb_refl.
      apply (rep_match_longest alpha 2 t [] post).
      * now rewrite app_nil_r.
      * exact Hpost'.
      * exact Ht.
      * intros x y E Hx. symmetry in E. apply app_eq_nil in E as [-> _]. done.
      * cbn [app]. unfold k0. f_equal.
        replace (_ - _) with (length (l ++ [64%N] ++ d ++ [46%N] ++ t))
          by (rewrite !length_app; cbn [length]; lia).
        apply take_app_length.
Qed.

(** The scan finds every delimited well-formed address. *)
Lemma findall_email_delimited (pre l d t post : str) :
  email_parts l d t →
  (∀ c, last pre = Some c → cls_local c = false ∧ c ≠ 64%N) →
  (∀ c, head post = Some c → cls_domain c = false) →
  email_of l d t ∈ findall email_pattern (pre ++ email_of l d t ++ post).
Proof.
  intros Hparts Hpre Hpost. unfold findall.
  apply (findall_from_delimited email_pattern
           (λ c, cls_local c || (c =? 64)%N)).
  - intros m ?%email_pattern_lang. now apply valid_email_chars.
  - apply valid_email_nonempty. now exists l, d, t.
  - now apply email_pattern_matches.
  - intros c [H1 H2]%Hpre. rewrite H1. cbn. now apply N.eqb_neq.
  - lia.
Qed.
End EmailFacts.

(** ** [_extract_emails] *)

Lemma extract_emails_elem (order : set_order) (text e : str) :
  e ∈ _extract_emails order text ↔ e ∈ findall email_pattern text.
Proof.
  unfold _extract_emails. destruct text as [|c text]; [done|].
  cbn [Str.truthy negb]. rewrite (set_iter_perm order).
  apply elem_of_remove_dups.
Qed.

Lemma extract_emails_nil (order : set_order) (text : str) :
  findall email_pattern text = [] → _extract_emails order text = [].
Proof.
  intros E. unfold _extract_emails. destruct (negb _); [done|].
  apply Permutation_nil_r. now rewrite (set_iter_perm order), E.
Qed.

Lemma extract_emails_sound (order : set_order) (text e : str) :
  e ∈ _extract_emails order text → substring e text ∧ valid_email e.
Proof.
  intros [H L]%extract_emails_elem%findall_sound.
  split; [exact H|]. now apply email_pattern_lang.
Qed.

(** C7 (as amended).  A well-formed address is recovered from any text in
    which it is delimited: the character before it, if any, is neither a
    local-part character nor [@], and the character after it, if any, is
    not a domain character.  Every recovered string is a well-formed
    address occurring in the text, so a text without such a substring
    (no [@], a last label of one letter) yields nothing; and the empty
    text yields the empty list. *)
Theorem extract_emails_delimited (order : set_order) :
  (∀ pre l d t post,
      email_parts l d t →
      (∀ c, last pre = Some c → cls_local c = false ∧ c ≠ 64%N) →
      (∀ c, head post = Some c → cls_domain c = false) →
      email_of l d t ∈ _extract_emails order (pre ++ email_of l d t ++ post))
  ∧ (∀ text,
        (∀ e, substring e text → ¬ valid_email e) →
        _extract_emails order text = [])
  ∧ (∀ text, 64%N ∉ text → _extract_emails order text = [])
  ∧ _extract_emails order (pystr "write to sales@acme.c today") = []
  ∧ _extract_emails order [] = [].
Proof.
  assert (None_valid : ∀ text,
             (∀ e, substring e text → ¬ valid_email e) →
             _extract_emails order text = []).
  { intros text H. destruct (_extract_emails order text) as [|e es] eqn:E;
      [done|]. exfalso.
    assert (e ∈ _extract_emails order text) as [S V]%extract_emails_sound
        by (rewrite E; apply elem_of_cons; now left).
    exact (H e S V). }
  split; [|split; [exact None_valid|split; [|split]]].
  - intros pre l d t post Hparts Hpre Hpost.
    apply extract_emails_elem. now apply findall_email_delimited.
  - intros text Hat. apply None_valid.
    intros e (before & after & ->) (l & d & t & -> & _).
    apply Hat. unfold email_of. literals.
    rewrite !elem_of_app. right. left. right. left. now left.
  - now apply extract_emails_nil.
  - reflexivity.
Qed.

(** The claim at a concrete text. *)
Lemma extract_emails_delimited_witness :
  email_of (pystr "info") (pystr "acme.co") (pystr "jp")
  ∈ _extract_emails first_seen_order
      (pystr "<!-- " ++ email_of (pystr "info") (pystr "acme.co") (pystr "jp")
       ++ pystr " -->").
Proof.
  apply (proj1 (extract_emails_delimited first_seen_order)).
  - repeat split; done.
  - intros c [= <-]. split; done.
  - intros c [= <-]. done.
Defined.

(** C7 (as stated) fails: surrounding text may itself belong to a match.
    Here the well-formed address [a.bc@d.ef] follows [u@]; the scan
    consumes [u@a.bc] and what remains, [@d.ef], matches nothing. *)
Lemma embedded_email_not_recovered :
  valid_email (pystr "a.bc@d.ef")
  ∧ ∀ order : set_order,
      pystr "a.bc@d.ef"
      ∉ _extract_emails order (pystr "u@" ++ pystr "a.bc@d.ef" ++ []).
Proof.
  split.
  - exists (pystr "a.bc"), (pystr "d"), (pystr "ef").
    split; [reflexivity|]. repeat split; done.
  - intros order H%extract_emails_elem.
    vm_compute in H. apply list_elem_of_singleton in H. discriminate H.
Qed.

(** ** Ordered dictionaries *)

Section DictFacts.
Implicit Types (d : Dict.t) (k v : str).

Lemma get_set_eq d k v : Dict.get (Dict.set d k v) k = Some v.
Proof.
  induction d as [|[k' v'] d IH]; cbn.
  - now rewrite bool_decide_eq_true_2.
  - case_bool_decide as E; cbn.
    + now rewrite bool_decide_eq_true_2.
    + now rewrite bool_decide_eq_false_2.
Qed.

Lemma get_set_ne d k k' v :
  k ≠ k' → Dict.get (Dict.set d k v) k' = Dict.get d k'.
Proof.
  intros Hne. induction d as [|[k0 v0] d IH]; cbn.
  - now rewrite bool_decide_eq_false_2.
  - case_bool_decide as E; cbn; [subst k0|now rewrite IH].
    now rewrite !bool_decide_eq_false_2.
Qed.

Lemma get_set d k k' v :
  Dict.get (Dict.set d k v) k'
  = if bool_decide (k = k') then Some v else Dict.get d k'.
Proof.
  case_bool_decide as E; [subst; apply get_set_eq|now apply get_set_ne].
Qed.

Lemma set_keys d k v : k ∈ d.*1 → (Dict.set d k v).*1 = d.*1.
Proof.
  induction d as [|[k' v'] d IH]; cbn; [by intros ?%elem_of_nil|].
  intros [->|H]%elem_of_cons; case_bool_decide; cbn; try done.
  now rewrite IH.
Qed.

Lemma set_has_sns_keys d k v :
  has_sns_keys d → k ∈ sns_keys → has_sns_keys (Dict.set d k v).
Proof.
  unfold has_sns_keys. intros E H. rewrite set_keys; [done|]. now rewrite E.
Qed.

(** A dictionary with the five keys, spelled out. *)
Lemma has_sns_keys_inv d :
  has_sns_keys d →
  ∃ v1 v2 v3 v4 v5,
    d = [ (pystr "instagram", v1); (pystr "tiktok", v2);
          (pystr "youtube", v3); (pystr "x", v4); (pystr "facebook", v5) ].
Proof.
  unfold has_sns_keys, sns_keys. intros E.
  destruct d as [|[k1 v1] [|[k2 v2] [|[k3 v3] [|[k4 v4] [|[k5 v5] [|? ?]]]]]];
    try discriminate E.
  injection E as -> -> -> -> ->. now exists v1, v2, v3, v4, v5.
Qed.

(** [update] with a dictionary over the same five keys replaces every
    value, the empty ones included. *)
Lemma update_same_keys d other :
  has_sns_keys d → has_sns_keys other → Dict.update d other = other.
Proof.
  intros (v1 & v2 & v3 & v4 & v5 & ->)%has_sns_keys_inv
         (w1 & w2 & w3 & w4 & w5 & ->)%has_sns_keys_inv.
  reflexivity.
Qed.
End DictFacts.

(** Membership in a concrete list, decided by evaluation. *)
Ltac by_evaluation := apply (bool_decide_unpack _); vm_compute; exact I.

Ltac by_cases H :=
  repeat (apply elem_of_cons in H as [->|H]); [..|by apply elem_of_nil in H].

Ltac distinct_keys := let E := fresh in intros E; vm_compute in E; discriminate E.

Ltac listed :=
  repeat first [ apply list_elem_of_here | apply list_elem_of_further ].

Lemma sns_keys_cases (key : str) :
  key ∈ sns_keys →
  key = pystr "instagram" ∨ key = pystr "tiktok" ∨ key = pystr "youtube"
  ∨ key = pystr "x" ∨ key = pystr "facebook".
Proof.
  intros H. vm_compute in H. by_cases H;
    repeat first [left; reflexivity | right]; reflexivity.
Qed.

Lemma display_keys_cases (key : str) :
  key ∈ display_keys →
  key = pystr "title" ∨ key = pystr "website_url" ∨ key = pystr "snippet"
  ∨ key = pystr "company_name".
Proof.
  intros H. vm_compute in H. by_cases H;
    repeat first [left; reflexivity | right]; reflexivity.
Qed.

(** ** [_extract_sns_urls] *)

Section SnsPatternFacts.

Lemma scan_patterns_get sns_type patterns text d k :
  Dict.get (scan_patterns sns_type patterns text d) k
  = match first_match patterns text with
    | Some m =>
      if bool_decide (output_key sns_type = k) then Some (with_scheme m)
      else Dict.get d k
    | None => Dict.get d k
    end.
Proof.
  induction patterns as [|p ps IH]; cbn [scan_patterns first_match]; [done|].
  destruct (findall p text) as [|m ms]; [exact IH|].
  fold (with_scheme m). unfold output_key.
  destruct (bool_decide (sns_type = pystr "x_twitter")); apply get_set.
Qed.

Lemma scan_patterns_keys sns_type patterns text d :
  has_sns_keys d → output_key sns_type ∈ sns_keys →
  has_sns_keys (scan_patterns sns_type patterns text d).
Proof.
  intros Hd Hk.
  induction patterns as [|p ps IH]; cbn [scan_patterns]; [done|].
  destruct (findall p text) as [|m ms]; [exact IH|].
  unfold output_key in Hk.
  destruct (bool_decide (sns_type = pystr "x_twitter"));
    now apply set_has_sns_keys.
Qed.

Lemma extract_sns_urls_keys text : has_sns_keys (_extract_sns_urls text).
Proof.
  unfold _extract_sns_urls, sns_patterns. cbn [fold_left fst snd].
  repeat (apply scan_patterns_keys; [|by_evaluation]).
  reflexivity.
Qed.

Lemma first_match_app ps qs text :
  first_match (ps ++ qs) text
  = match first_match ps text with
    | Some m => Some m
    | None => first_match qs text
    end.
Proof.
  induction ps as [|p ps IH]; cbn; [done|].
  now destruct (findall p text).
Qed.

Lemma first_match_lang ps text m :
  first_match ps text = Some m → ∃ p, p ∈ ps ∧ lang p m.
Proof.
  induction ps as [|p ps IH]; cbn; [done|].
  destruct (findall p text) as [|m' ms] eqn:F.
  - intros (q & Hq & L)%IH. exists q. split; [|done].
    apply elem_of_cons. now right.
  - intros [= ->]. exists p. split; [apply elem_of_cons; now left|].
    apply (findall_sound p text). rewrite F. apply elem_of_cons. now left.
Qed.

Lemma startswith_app (pre s : str) : Str.startswith (pre ++ s) pre = true.
Proof. induction pre as [|c pre IH]; cbn; [done|]. now rewrite N.eqb_refl. Qed.

(** A match of a protocol-qualified form is stored as it is. *)
Lemma with_scheme_qualified tail m :
  lang (scheme_www tail) m → with_scheme m = m.
Proof.
  intros (m1 & m2 & -> & -> & _). unfold with_scheme.
  now rewrite startswith_app.
Qed.

(** A match of a bare-domain form starts with the domain, not with
    [http], and is stored behind [https://]. *)
Lemma with_scheme_bare tail m :
  tail ∈ [instagram_tail; tiktok_tail; youtube_channel_tail;
          youtube_handle_tail; x_twitter_tail; facebook_tail] →
  lang tail m → with_scheme m = pystr "https://" ++ m.
Proof.
  intros Hin L. unfold with_scheme.
  repeat (apply elem_of_cons in Hin as [->|Hin]);
    [..|by apply elem_of_nil in Hin];
    cbn in L; destruct L as (m1 & m2 & -> & L1 & _);
    try (destruct L1 as [L1|L1]); subst m1; reflexivity.
Qed.
End SnsPatternFacts.

Section SnsUrlFacts.
Variable text : str.

Lemma scan_patterns_other sns_type patterns d k :
  output_key sns_type ≠ k →
  Dict.get (scan_patterns sns_type patterns text d) k = Dict.get d k.
Proof.
  intros Hne. rewrite scan_patterns_get.
  destruct (first_match patterns text); [|done].
  now rewrite bool_decide_eq_false_2.
Qed.

Lemma scan_patterns_own sns_type patterns d k :
  output_key sns_type = k →
  Dict.get (scan_patterns sns_type patterns text d) k
  = match first_match patterns text with
    | Some m => Some (with_scheme m)
    | None => Dict.get d k
    end.
Proof.
  intros E. rewrite scan_patterns_get.
  destruct (first_match patterns text); [|done].
  now rewrite bool_decide_eq_true_2.
Qed.

(** Protocol-qualified forms first, bare forms next; only a bare match
    is prefixed. *)
Lemma stored_url tails :
  (∀ tail, tail ∈ tails →
           tail ∈ [instagram_tail; tiktok_tail; youtube_channel_tail;
                   youtube_handle_tail; x_twitter_tail; facebook_tail]) →
  match first_match ((scheme_www <$> tails) ++ tails) text with
  | Some m => Some (with_scheme m)
  | None => Some []
  end
  = Some match first_match (scheme_www <$> tails) text with
         | Some m => m
         | None => match first_match tails text with
                   | Some m => pystr "https://" ++ m
                   | None => []
                   end
         end.
Proof.
  intros Hsub. rewrite first_match_app.
  destruct (first_match (scheme_www <$> tails) text) as [m|] eqn:Q.
  - apply first_match_lang in Q as (p & (tail & -> & _)%list_elem_of_fmap & L).
    f_equal. now apply (with_scheme_qualified tail).
  - destruct (first_match tails text) as [m|] eqn:B; [|done].
    apply first_match_lang in B as (tail & Hin & L).
    f_equal. apply (with_scheme_bare tail); [now apply Hsub|exact L].
Qed.
End SnsUrlFacts.

(** C6.  Each platform's pattern list holds its protocol-qualified forms
    first and its bare-domain forms next; the result has one slot per
    platform, filled by the first match of the first pattern of the list
    that matches, later patterns being skipped; a match of a
    protocol-qualified form is stored as it is and a match of a bare form
    is stored behind [https://]. *)
Theorem extract_sns_urls_first_match (text : str) :
  sns_patterns.*2
  = (λ entry, (scheme_www <$> entry.2) ++ entry.2) <$> platform_tails
  ∧ (_extract_sns_urls text).*1 = platform_tails.*1
  ∧ ∀ key tails,
      (key, tails) ∈ platform_tails →
      Dict.get (_extract_sns_urls text) key
      = Some match first_match (scheme_www <$> tails) text with
             | Some m => m
             | None => match first_match tails text with
                       | Some m => pystr "https://" ++ m
                       | None => []
                       end
             end.
Proof.
  split; [reflexivity|]. split; [exact (extract_sns_urls_keys text)|].
  intros key tails Hin. unfold platform_tails in Hin.
  repeat (apply elem_of_cons in Hin as [[= -> ->]|Hin]);
    [..|by apply elem_of_nil in Hin];
    unfold _extract_sns_urls, sns_patterns; cbn [fold_left fst snd];
    rewrite ?scan_patterns_other by distinct_keys;
    rewrite scan_patterns_own by reflexivity;
    rewrite ?scan_patterns_other by distinct_keys;
    (etransitivity; [|apply stored_url];
     [reflexivity | intros tail Ht; by_cases Ht; listed]).
Qed.

(** The claim at a concrete text: a bare TikTok handle. *)
Lemma extract_sns_urls_first_match_witness :
  Dict.get (_extract_sns_urls (pystr "find us on tiktok.com/@acme.jp/ !"))
           (pystr "tiktok")
  = Some (pystr "https://tiktok.com/@acme.jp/").
Proof.
  refine (eq_trans
            (proj2 (proj2 (extract_sns_urls_first_match
                             (pystr "find us on tiktok.com/@acme.jp/ !")))
                   (pystr "tiktok") [tiktok_tail] _) _).
  - unfold platform_tails. listed.
  - vm_compute. reflexivity.
Defined.

(** ** [_extract_sns_urls_from_links] *)

Section AnchorFacts.

(** The [elif] chain attributes an anchor to the first platform of the
    table that its [href] mentions. *)
Lemma classify_link_attribution d href :
  classify_link d href
  = match attribution platform_domains href with
    | Some key => Dict.set d key href
    | None => d
    end.
Proof.
  unfold classify_link, platform_domains.
  cbn [attribution mentions existsb]. rewrite !orb_false_r.
  repeat match goal with
         | |- context [if ?b then _ else _] => destruct b; try reflexivity
         end.
Qed.

Lemma attribution_key href key :
  attribution platform_domains href = Some key → key ∈ sns_keys.
Proof.
  unfold platform_domains. cbn [attribution].
  repeat match goal with
         | |- context [if ?b then _ else _] => destruct b
         end; intros [= <-]; by_evaluation.
Qed.

Lemma classify_link_keys d href :
  has_sns_keys d → has_sns_keys (classify_link d href).
Proof.
  intros Hd. rewrite classify_link_attribution.
  destruct (attribution platform_domains href) as [key|] eqn:E; [|done].
  apply set_has_sns_keys; [done|]. now apply (attribution_key href).
Qed.

Lemma anchor_scan_keys links :
  has_sns_keys (_extract_sns_urls_from_links links).
Proof.
  unfold _extract_sns_urls_from_links.
  assert (G : ∀ d, has_sns_keys d →
                   has_sns_keys (fold_left classify_link links d)).
  { induction links as [|h links IH]; intros d Hd; [done|].
    cbn [fold_left]. now apply IH, classify_link_keys. }
  now apply G.
Qed.

Lemma anchor_scan_get links : ∀ d key,
  Dict.get (fold_left classify_link links d) key
  = match last (filter (λ href, attribution platform_domains href = Some key)
                       links) with
    | Some href => Some href
    | None => Dict.get d key
    end.
Proof.
  induction links as [|h links IH] using rev_ind; intros d key; [done|].
  rewrite fold_left_app, filter_app. cbn [fold_left].
  rewrite classify_link_attribution.
  destruct (attribution platform_domains h) as [k|] eqn:E.
  - rewrite get_set. case_bool_decide as K.
    + subst k. rewrite filter_cons_True by done.
      now rewrite filter_nil, last_snoc.
    + rewrite filter_cons_False by congruence.
      rewrite filter_nil, app_nil_r. apply IH.
  - rewrite filter_cons_False by congruence.
    rewrite filter_nil, app_nil_r. apply IH.
Qed.
End AnchorFacts.

(** C10 (as amended).  For each platform the anchor scan keeps the [href]
    of the last anchor attributed to it, an anchor being attributed to
    the first platform, in the order instagram, tiktok, youtube,
    twitter/x, facebook, one of whose domain substrings occurs in the
    [href]; the slot stays empty when no anchor is.  The [href] is stored
    character for character: nothing is prefixed and the domain need not
    be the host, as the relative redirect link below shows. *)
Theorem anchor_scan_keeps_last_attributed (links : list str) :
  (∀ key,
      key ∈ sns_keys →
      Dict.get (_extract_sns_urls_from_links links) key
      = Some (default []
                (last (filter
                         (λ href, attribution platform_domains href = Some key)
                         links))))
  ∧ (∀ href,
        attribution platform_domains href = Some (pystr "instagram")
        ↔ Str.contains (pystr "instagram.com") href = true)
  ∧ Dict.get (_extract_sns_urls_from_links
                [pystr "/out?to=facebook.com/acme"]) (pystr "facebook")
    = Some (pystr "/out?to=facebook.com/acme").
Proof.
  split; [|split; [|reflexivity]].
  - intros key Hkey. unfold _extract_sns_urls_from_links.
    rewrite anchor_scan_get. destruct (last _); [done|].
    destruct (sns_keys_cases _ Hkey) as [->|[->|[->|[->| ->]]]];
      reflexivity.
  - intros href. unfold platform_domains. cbn [attribution mentions existsb].
    rewrite orb_false_r.
    destruct (Str.contains (pystr "instagram.com") href); [done|].
    split; [|done].
    repeat match goal with
           | |- context [if ?b then _ else _] => destruct b
           end; intros [= E]; vm_compute in E; discriminate E.
Qed.

(** The claim at a concrete page: two anchors to YouTube, the second one
    through the short domain. *)
Lemma anchor_scan_keeps_last_attributed_witness :
  Dict.get (_extract_sns_urls_from_links
              [pystr "https://youtube.com/@acme"; pystr "https://youtu.be/xyz"])
           (pystr "youtube")
  = Some (pystr "https://youtu.be/xyz").
Proof.
  refine (eq_trans
            (proj1 (anchor_scan_keeps_last_attributed
                      [pystr "https://youtube.com/@acme";
                       pystr "https://youtu.be/xyz"])
                   (pystr "youtube") _) _).
  - by_evaluation.
  - vm_compute. reflexivity.
Defined.

(** C10 (as stated) fails: the last anchor whose [href] contains
    [tiktok.com] also contains [instagram.com], so the chain files it
    under Instagram and the TikTok slot keeps the earlier anchor. *)
Lemma anchor_scan_earlier_platform_first :
  last (filter (λ href, Str.contains (pystr "tiktok.com") href = true)
               [pystr "https://tiktok.com/@acme";
                pystr "https://instagram.com/acme?from=tiktok.com"])
  = Some (pystr "https://instagram.com/acme?from=tiktok.com")
  ∧ Dict.get (_extract_sns_urls_from_links
                [pystr "https://tiktok.com/@acme";
                 pystr "https://instagram.com/acme?from=tiktok.com"])
             (pystr "tiktok")
    = Some (pystr "https://tiktok.com/@acme")
  ∧ pystr "https://tiktok.com/@acme"
    ≠ pystr "https://instagram.com/acme?from=tiktok.com".
Proof. split; [|split]; [vm_compute; reflexivity..|discriminate]. Qed.

(** ** [extract_contact_info] *)

Section ExtractorFacts.
Variable order : set_order.

(** Both scanners return all five keys, so [update] overwrites every
    pattern-derived value with the anchor-derived one, empty or not. *)
Lemma merged_sns_urls html hrefs :
  Dict.update (_extract_sns_urls html) (_extract_sns_urls_from_links hrefs)
  = _extract_sns_urls_from_links hrefs.
Proof.
  apply update_same_keys;
    [apply extract_sns_urls_keys | apply anchor_scan_keys].
Qed.

Lemma store_sns_urls_frame (d : Dict.t) (result : gmap str str) (key : str) :
  (∀ k, k ∈ d.*1 → k ++ pystr "_url" ≠ key) →
  fold_left store_sns_url d result !! key = result !! key.
Proof.
  revert result. induction d as [|[k v] d IH]; intros result Hne; [done|].
  cbn [fold_left]. rewrite IH.
  - unfold store_sns_url. cbn [fst snd]. destruct (Str.truthy v); [|done].
    apply lookup_insert_ne, Hne. cbn. apply list_elem_of_here.
  - intros k' Hk'. apply Hne. cbn. now apply list_elem_of_further.
Qed.

(** The field written for a platform holds the anchor scan's value when
    that is non-empty, and is left alone otherwise. *)
Lemma store_sns_urls_lookup (d : Dict.t) (result : gmap str str) (key : str) :
  has_sns_keys d → key ∈ sns_keys →
  fold_left store_sns_url d result !! (key ++ pystr "_url")
  = match Dict.get d key with
    | Some (c :: url) => Some (c :: url)
    | _ => result !! (key ++ pystr "_url")
    end.
Proof.
  intros (v1 & v2 & v3 & v4 & v5 & ->)%has_sns_keys_inv Hkey.
  destruct (sns_keys_cases _ Hkey) as [->|[->|[->|[->| ->]]]];
    [ change (Dict.get _ _) with (Some v1)
    | change (Dict.get _ _) with (Some v2)
    | change (Dict.get _ _) with (Some v3)
    | change (Dict.get _ _) with (Some v4)
    | change (Dict.get _ _) with (Some v5) ];
    cbn [fold_left]; unfold store_sns_url; cbn [fst snd];
    destruct v1, v2, v3, v4, v5; cbn [Str.truthy];
    repeat first [ rewrite lookup_insert_eq
                 | rewrite lookup_insert_ne by distinct_keys ];
    reflexivity.
Qed.

Lemma extract_contact_info_fetched (get : str → response) (result : gmap str str)
      (pg : page) :
  Str.truthy (get_or_empty result (pystr "website_url")) = true →
  get (get_or_empty result (pystr "website_url")) = Fetched pg →
  extract_contact_info order get result
  = fold_left store_sns_url (_extract_sns_urls_from_links (links pg))
      match _extract_emails order (text pg)
            ++ _extract_emails order (html_source pg) with
      | emails0 :: _ => <[pystr "email" := emails0]> result
      | [] => result
      end.
Proof.
  intros Hurl Hget. unfold extract_contact_info.
  now rewrite Hurl, Hget, merged_sns_urls.
Qed.

Lemma extract_contact_info_failed (get : str → response) (result : gmap str str) :
  get (get_or_empty result (pystr "website_url")) = Failed →
  extract_contact_info order get result = result.
Proof.
  intros Hget. unfold extract_contact_info. rewrite Hget.
  now destruct (negb _).
Qed.

Lemma extract_contact_info_frame (get : str → response)
      (result : gmap str str) (key : str) :
  key ∈ display_keys →
  extract_contact_info order get result !! key = result !! key.
Proof.
  intros Hkey. unfold extract_contact_info.
  destruct (negb _); [done|].
  destruct (get _) as [|pg]; [done|].
  rewrite merged_sns_urls, store_sns_urls_frame.
  - destruct (_ ++ _); [done|]. apply lookup_insert_ne.
    destruct (display_keys_cases _ Hkey) as [->|[->|[->| ->]]];
      distinct_keys.
  - intros k Hk. rewrite (anchor_scan_keys (links pg)) in Hk.
    destruct (sns_keys_cases _ Hk) as [->|[->|[->|[->| ->]]]];
      destruct (display_keys_cases _ Hkey) as [->|[->|[->| ->]]];
      distinct_keys.
Qed.

Lemma extract_contact_info_email (get : str → response) (result : gmap str str)
      (pg : page) :
  Str.truthy (get_or_empty result (pystr "website_url")) = true →
  get (get_or_empty result (pystr "website_url")) = Fetched pg →
  extract_contact_info order get result !! pystr "email"
  = match _extract_emails order (text pg)
          ++ _extract_emails order (html_source pg) with
    | emails0 :: _ => Some emails0
    | [] => result !! pystr "email"
    end.
Proof.
  intros Hurl Hget. rewrite (extract_contact_info_fetched _ _ pg) by done.
  rewrite store_sns_urls_frame.
  - destruct (_ ++ _); [done|]. apply lookup_insert_eq.
  - intros k Hk. rewrite (anchor_scan_keys (links pg)) in Hk.
    destruct (sns_keys_cases _ Hk) as [->|[->|[->|[->| ->]]]];
      distinct_keys.
Qed.
End ExtractorFacts.

(** C9.  Whatever the response, [extract_contact_info] leaves [title],
    [website_url], [snippet] and [company_name] as they were; what it
    writes are the contact-signal fields. *)
Theorem extract_contact_info_keeps_display_fields
        (order : set_order) (get : str → response) (result : gmap str str) :
  Forall (λ key, extract_contact_info order get result !! key = result !! key)
         display_keys
  ∧ ∀ key, key ∉ signal_keys →
           extract_contact_info order get result !! key = result !! key.
Proof.
  split.
  - apply Forall_forall. intros key Hkey.
    now apply extract_contact_info_frame.
  - intros key Hkey. unfold extract_contact_info.
    destruct (negb _); [done|]. destruct (get _) as [|pg]; [done|].
    rewrite merged_sns_urls, store_sns_urls_frame.
    + destruct (_ ++ _); [done|]. apply lookup_insert_ne.
      intros <-. apply Hkey. by_evaluation.
    + intros k Hk <-. apply Hkey.
      rewrite (anchor_scan_keys (links pg)) in Hk.
      destruct (sns_keys_cases _ Hk) as [->|[->|[->|[->| ->]]]];
        by_evaluation.
Qed.

(** The claim at a concrete page and record. *)
Lemma extract_contact_info_keeps_display_fields_witness :
  extract_contact_info first_seen_order
    (λ _, Fetched {| text := pystr "mail info@acme.jp";
                     html_source := pystr "<p>mail info@acme.jp</p>";
                     links := [pystr "https://x.com/acme"] |})
    (formatted_result (pystr "Acme | Home") (pystr "https://acme.jp")
                      (pystr "about"))
  !! pystr "source"
  = Some (pystr "Google Search").
Proof.
  refine (eq_trans
            (proj2 (extract_contact_info_keeps_display_fields _ _ _)
                   (pystr "source") _) _).
  - intros H. apply (bool_decide_pack _) in H. vm_compute in H. exact H.
  - vm_compute. reflexivity.
Defined.

(** What reaches the record for a platform is the anchor scan's value
    alone; the value [_extract_sns_urls] found in the markup never does. *)
Lemma extract_contact_info_profile_url
      (order : set_order) (get : str → response) (result : gmap str str)
      (pg : page) (key : str) :
  Str.truthy (get_or_empty result (pystr "website_url")) = true →
  get (get_or_empty result (pystr "website_url")) = Fetched pg →
  key ∈ sns_keys →
  extract_contact_info order get result !! (key ++ pystr "_url")
  = match Dict.get (_extract_sns_urls_from_links (links pg)) key with
    | Some (c :: url) => Some (c :: url)
    | _ => result !! (key ++ pystr "_url")
    end.
Proof.
  intros Hurl Hget Hkey. rewrite (extract_contact_info_fetched _ _ _ pg) by done.
  rewrite store_sns_urls_lookup by (done || apply anchor_scan_keys).
  destruct (Dict.get _ key) as [[|c url]|]; try done;
    destruct (_extract_emails order (text pg) ++ _); try done;
    apply lookup_insert_ne;
    destruct (sns_keys_cases _ Hkey) as [->|[->|[->|[->| ->]]]];
    distinct_keys.
Qed.

(** C2, at a page on which only the markup names a profile: the pattern
    scan finds the Instagram URL, no anchor carries one, and the merge
    [sns_urls.update(...)] replaces the found URL by the anchor scan's
    empty string, so the record's [instagram_url] stays empty. *)
Theorem pattern_url_lost_in_merge :
  Dict.get (_extract_sns_urls
              (pystr "<p>Follow https://instagram.com/acme2 today</p>"))
           (pystr "instagram")
  = Some (pystr "https://instagram.com/acme2")
  ∧ Dict.get (_extract_sns_urls_from_links []) (pystr "instagram") = Some []
  ∧ extract_contact_info first_seen_order
      (λ _, Fetched
              {| text := pystr "Follow https://instagram.com/acme2 today";
                 html_source :=
                   pystr "<p>Follow https://instagram.com/acme2 today</p>";
                 links := [] |})
      (formatted_result (pystr "Acme | Home") (pystr "https://acme.example")
                        (pystr "about us"))
    !! pystr "instagram_url"
    = Some [].
Proof. repeat split; vm_compute; reflexivity. Qed.

(** ** The chosen email *)

Lemma extract_emails_nonempty (order : set_order) (text : str) :
  findall email_pattern text ≠ [] →
  ∃ e es, _extract_emails order text = e :: es
          ∧ e ∈ findall email_pattern text.
Proof.
  intros Hne. destruct (_extract_emails order text) as [|e es] eqn:E.
  - destruct (findall email_pattern text) as [|m ms] eqn:F; [done|].
    assert (m ∈ _extract_emails order text) as H.
    { apply extract_emails_elem. rewrite F. apply list_elem_of_here. }
    rewrite E in H. now apply elem_of_nil in H.
  - exists e, es. split; [done|]. apply (extract_emails_elem order).
    rewrite E. apply list_elem_of_here.
Qed.

(** C3 (as amended).  When the visible text or the raw markup of a fetched
    page holds an address, the record's [email] is one of the addresses
    matched in the visible text, or, when the visible text holds none,
    one of those matched in the raw markup.  It is the first occurrence
    whenever that source holds a single distinct address; among several
    distinct addresses the choice follows the iteration order of the set,
    on which nothing is promised. *)
Theorem chosen_email_from_preferred_source
        (order : set_order) (get : str → response) (result : gmap str str)
        (pg : page) :
  Str.truthy (get_or_empty result (pystr "website_url")) = true →
  get (get_or_empty result (pystr "website_url")) = Fetched pg →
  findall email_pattern (text pg) ++ findall email_pattern (html_source pg)
  ≠ [] →
  ∃ e source,
    extract_contact_info order get result !! pystr "email" = Some e
    ∧ source = (if decide (findall email_pattern (text pg) = [])
                then findall email_pattern (html_source pg)
                else findall email_pattern (text pg))
    ∧ e ∈ source
    ∧ (∀ first, head source = Some first →
                (∀ x, x ∈ source → x = first) → e = first).
Proof.
  intros Hurl Hget Hany. rewrite (extract_contact_info_email _ _ _ pg) by done.
  assert (G : ∀ (e : str) (source : list str), e ∈ source →
                ∀ first, head source = Some first →
                         (∀ x, x ∈ source → x = first) → e = first)
    by (intros e source He first _ Hall; now apply Hall).
  destruct (decide (findall email_pattern (text pg) = [])) as [Hnil|Hsome].
  - rewrite Hnil in Hany. cbn [app] in Hany.
    rewrite (extract_emails_nil order (text pg) Hnil). cbn [app].
    destruct (extract_emails_nonempty order _ Hany) as (e & es & -> & He).
    exists e, (findall email_pattern (html_source pg)). eauto.
  - destruct (extract_emails_nonempty order _ Hsome) as (e & es & -> & He).
    exists e, (findall email_pattern (text pg)). cbn [app]. eauto.
Qed.

(** The claim at a page whose only address sits in a comment of the
    markup. *)
Lemma chosen_email_from_preferred_source_witness :
  ∃ e source,
    extract_contact_info first_seen_order
      (λ _, Fetched {| text := pystr "Acme Corp";
                       html_source :=
                         pystr "<!-- contact@acme.co.jp --><p>Acme Corp</p>";
                       links := [] |})
      (formatted_result (pystr "Acme") (pystr "https://acme.co.jp") [])
    !! pystr "email" = Some e
    ∧ source = (if decide (findall email_pattern (pystr "Acme Corp") = [])
                then findall email_pattern
                       (pystr "<!-- contact@acme.co.jp --><p>Acme Corp</p>")
                else findall email_pattern (pystr "Acme Corp"))
    ∧ e ∈ source
    ∧ (∀ first, head source = Some first →
                (∀ x, x ∈ source → x = first) → e = first).
Proof.
  apply (chosen_email_from_preferred_source first_seen_order _ _
           {| text := pystr "Acme Corp";
              html_source := pystr "<!-- contact@acme.co.jp --><p>Acme Corp</p>";
              links := [] |}).
  - vm_compute. reflexivity.
  - reflexivity.
  - vm_compute. discriminate.
Defined.

(** C3 (as stated) fails: with two addresses in the visible text, an
    admissible set order enumerates the later one first, and that one
    becomes the record's [email]. *)
Lemma chosen_email_not_first_occurrence :
  head (findall email_pattern (pystr "sales a@b.co, press c@d.co"))
  = Some (pystr "a@b.co")
  ∧ extract_contact_info last_seen_order
      (λ _, Fetched {| text := pystr "sales a@b.co, press c@d.co";
                       html_source := pystr "<p>sales a@b.co, press c@d.co</p>";
                       links := [] |})
      (formatted_result (pystr "Acme") (pystr "https://acme.example") [])
    !! pystr "email"
    = Some (pystr "c@d.co")
  ∧ pystr "c@d.co" ≠ pystr "a@b.co".
Proof. split; [|split]; [vm_compute; reflexivity..|discriminate]. Qed.

(** ** [process_search_results] *)

Section OrchestratorFacts.
Variables (order : set_order) (fetch : nat → str → response).

Lemma slice_to_nonneg {A : Type} (l : list A) (stop : Z) :
  (0 ≤ stop)%Z → slice_to l stop = take (Z.to_nat stop) l.
Proof.
  intros H. unfold slice_to.
  destruct (Z.leb_spec 0 stop) as [_|Hlt]; [done|lia].
Qed.

Lemma forallb_take {A : Type} (p : A → bool) (l : list A) (n : nat) :
  forallb p l = true → forallb p (take n l) = true.
Proof.
  revert n. induction l as [|x l IH]; intros [|n]; cbn; try done.
  intros [-> H]%andb_true_iff. now apply IH.
Qed.

(** With a title on every candidate the loop runs to the end and
    appends one record per candidate, in order. *)
Lemma process_loop_returns (todo : list (gmap str str)) :
  ∀ i processed_results,
    forallb has_title todo = true →
    process_loop order fetch i todo processed_results
    = Returned (processed_results
                ++ imap (λ j result,
                         scan_candidate order (fetch (i + j)) result) todo).
Proof.
  induction todo as [|result todo IH]; intros i acc Htitle.
  - cbn. now rewrite app_nil_r.
  - cbn in Htitle. apply andb_true_iff in Htitle as [Ht Htitle].
    apply bool_decide_eq_true in Ht as [title Ht].
    cbn [process_loop]. rewrite Ht, IH by done.
    rewrite <- app_assoc. cbn [app imap]. rewrite Nat.add_0_r.
    do 3 f_equal. apply imap_ext. intros j r _. cbn.
    now rewrite Nat.add_succ_r.
Qed.

Lemma process_search_results_returns (results : list (gmap str str))
      (limit : Z) :
  (0 ≤ limit)%Z →
  forallb has_title results = true →
  process_search_results order fetch results limit
  = Returned (imap (λ i result, scan_candidate order (fetch i) result)
                   (take (Z.to_nat limit) results)).
Proof.
  intros Hlimit Htitle. unfold process_search_results.
  rewrite slice_to_nonneg by done.
  now rewrite process_loop_returns by now apply forallb_take.
Qed.

Lemma scan_candidate_frame (get : str → response) (result : gmap str str)
      (key : str) :
  key ∈ display_keys →
  scan_candidate order get result !! key = result !! key.
Proof.
  intros Hkey. unfold scan_candidate. destruct (Str.truthy _); [|done].
  now apply extract_contact_info_frame.
Qed.

Lemma scan_candidate_failed (get : str → response) (result : gmap str str) :
  get (get_or_empty result (pystr "website_url")) = Failed →
  scan_candidate order get result = result.
Proof.
  intros Hget. unfold scan_candidate. destruct (Str.truthy _); [|done].
  now apply extract_contact_info_failed.
Qed.
End OrchestratorFacts.

Lemma formatted_result_signals (title link snippet : str) :
  Forall (λ key, formatted_result title link snippet !! key = Some [])
         signal_keys.
Proof. repeat constructor. Qed.

(** C1 (as amended).  For a limit that is not negative and candidates
    that all carry a title, the run returns one record for each of the
    first [min(len(results), limit)] candidates, in order, each with its
    [title], [website_url], [snippet] and [company_name] intact; it
    consults the fetcher for no position at or beyond [limit]; and the
    candidates at positions [limit] and beyond are absent from the
    output, whose length is therefore [min(len(results), limit)]. *)
Theorem process_search_results_keeps_first_limit
        (order : set_order) (fetch : nat → str → response)
        (results : list (gmap str str)) (limit : Z) :
  (0 ≤ limit)%Z →
  forallb has_title results = true →
  ∃ out,
    process_search_results order fetch results limit = Returned out
    ∧ out = imap (λ i result, scan_candidate order (fetch i) result)
                 (take (Z.to_nat limit) results)
    ∧ length out = Nat.min (length results) (Z.to_nat limit)
    ∧ ∀ i r, out !! i = Some r →
             i < Z.to_nat limit
             ∧ ∃ candidate, results !! i = Some candidate
                            ∧ Forall (λ key, r !! key = candidate !! key)
                                     display_keys.
Proof.
  intros Hlimit Htitle. eexists. split; [|split; [reflexivity|split]].
  - now apply process_search_results_returns.
  - rewrite length_imap, length_take. lia.
  - intros i r Hi. rewrite list_lookup_imap in Hi.
    destruct (take _ results !! i) as [c|] eqn:Hc; [|done].
    apply lookup_take_Some in Hc as [Hc Hlt]. injection Hi as <-.
    split; [exact Hlt|]. exists c. split; [exact Hc|].
    apply Forall_forall. intros key Hkey. now apply scan_candidate_frame.
Qed.

(** The claim at a concrete run: three candidates, a budget of two. *)
Lemma process_search_results_keeps_first_limit_witness :
  ∃ out,
    process_search_results first_seen_order (λ _ _, Failed)
      [formatted_result (pystr "A | x") (pystr "https://a.example") [];
       formatted_result (pystr "B - y") (pystr "https://b.example") [];
       formatted_result (pystr "C : z") (pystr "https://c.example") []] 2
    = Returned out
    ∧ out = imap (λ i result,
                  scan_candidate first_seen_order ((λ _ _, Failed) i) result)
              (take (Z.to_nat 2)
                 [formatted_result (pystr "A | x") (pystr "https://a.example") [];
                  formatted_result (pystr "B - y") (pystr "https://b.example") [];
                  formatted_result (pystr "C : z") (pystr "https://c.example") []])
    ∧ length out
      = Nat.min
          (length
             [formatted_result (pystr "A | x") (pystr "https://a.example") [];
              formatted_result (pystr "B - y") (pystr "https://b.example") [];
              formatted_result (pystr "C : z") (pystr "https://c.example") []])
          (Z.to_nat 2)
    ∧ ∀ i r, out !! i = Some r →
             i < Z.to_nat 2
             ∧ ∃ candidate,
                 [formatted_result (pystr "A | x") (pystr "https://a.example") [];
                  formatted_result (pystr "B - y") (pystr "https://b.example") [];
                  formatted_result (pystr "C : z") (pystr "https://c.example") []]
                 !! i = Some candidate
                 ∧ Forall (λ key, r !! key = candidate !! key) display_keys.
Proof.
  apply process_search_results_keeps_first_limit.
  - lia.
  - vm_compute. reflexivity.
Defined.

(** C1 (as stated) fails: [results[:max_pages_to_scan]] is all the loop
    ever sees, so a candidate beyond the limit is not copied to the
    output and the output is shorter than the input. *)
Lemma candidates_beyond_limit_dropped :
  process_search_results first_seen_order (λ _ _, Failed)
    [formatted_result (pystr "A | x") (pystr "https://a.example") [];
     formatted_result (pystr "B - y") (pystr "https://b.example") []] 1
  = Returned [formatted_result (pystr "A | x") (pystr "https://a.example") []]
  ∧ length [formatted_result (pystr "A | x") (pystr "https://a.example") []]
    ≠ length
        [formatted_result (pystr "A | x") (pystr "https://a.example") [];
         formatted_result (pystr "B - y") (pystr "https://b.example") []].
Proof. split; [vm_compute; reflexivity|cbn; lia]. Qed.

(** C4.  When the fetch for a candidate within the limit fails, the run
    still returns: the candidate is in the output at its position,
    unmodified, hence with empty [email] and profile-URL fields when it
    came from [search_google]; and every other candidate within the limit
    is processed as it would have been. *)
Theorem failed_fetch_passes_candidate_through
        (order : set_order) (fetch : nat → str → response)
        (results : list (gmap str str)) (limit : Z)
        (i : nat) (candidate : gmap str str) :
  (0 ≤ limit)%Z →
  forallb has_title results = true →
  results !! i = Some candidate →
  (Z.of_nat i < limit)%Z →
  Str.truthy (get_or_empty candidate (pystr "website_url")) = true →
  fetch i (get_or_empty candidate (pystr "website_url")) = Failed →
  ∃ out,
    process_search_results order fetch results limit = Returned out
    ∧ out !! i = Some candidate
    ∧ (∀ title link snippet,
          candidate = formatted_result title link snippet →
          ∀ r, out !! i = Some r →
               Forall (λ key, r !! key = Some []) signal_keys)
    ∧ ∀ j c, results !! j = Some c → (Z.of_nat j < limit)%Z →
             out !! j = Some (scan_candidate order (fetch j) c).
Proof.
  intros Hlimit Htitle Hi Hlt Hurl Hfail. eexists.
  split; [now apply process_search_results_returns|].
  assert (Hall : ∀ j c, results !! j = Some c → (Z.of_nat j < limit)%Z →
                        imap (λ i result, scan_candidate order (fetch i) result)
                             (take (Z.to_nat limit) results) !! j
                        = Some (scan_candidate order (fetch j) c)).
  { intros j c Hj Hjlt. rewrite list_lookup_imap, lookup_take_lt by lia.
    now rewrite Hj. }
  assert (Hout : imap (λ i result, scan_candidate order (fetch i) result)
                      (take (Z.to_nat limit) results) !! i = Some candidate).
  { rewrite (Hall i candidate) by done.
    now rewrite scan_candidate_failed. }
  split; [exact Hout|]. split; [|exact Hall].
  intros title link snippet -> r Hr. rewrite Hout in Hr. injection Hr as <-.
  apply formatted_result_signals.
Qed.

(** The claim at a concrete run: the first of two candidates times out,
    the second is fetched. *)
Lemma failed_fetch_passes_candidate_through_witness :
  ∃ out,
    process_search_results first_seen_order
      (λ i _, match i with
              | 0 => Failed
              | S _ => Fetched {| text := pystr "hello b@b.example";
                                  html_source := pystr "hello b@b.example";
                                  links := [] |}
              end)
      [formatted_result (pystr "A | x") (pystr "https://a.example") [];
       formatted_result (pystr "B - y") (pystr "https://b.example") []] 5
    = Returned out
    ∧ out !! 0
      = Some (formatted_result (pystr "A | x") (pystr "https://a.example") [])
    ∧ (∀ title link snippet,
          formatted_result (pystr "A | x") (pystr "https://a.example") []
          = formatted_result title link snippet →
          ∀ r, out !! 0 = Some r →
               Forall (λ key, r !! key = Some []) signal_keys)
    ∧ ∀ j c,
        [formatted_result (pystr "A | x") (pystr "https://a.example") [];
         formatted_result (pystr "B - y") (pystr "https://b.example") []]
        !! j = Some c →
        (Z.of_nat j < 5)%Z →
        out !! j
        = Some (scan_candidate first_seen_order
                  ((λ i _, match i with
                           | 0 => Failed
                           | S _ =>
                             Fetched {| text := pystr "hello b@b.example";
                                        html_source := pystr "hello b@b.example";
                                        links := [] |}
                           end) j) c).
Proof.
  apply (failed_fetch_passes_candidate_through first_seen_order _ _ 5 0).
  - lia.
  - vm_compute. reflexivity.
  - reflexivity.
  - lia.
  - vm_compute. reflexivity.
  - reflexivity.
Defined.

(** * Further properties of the source *)

(** ** [search_google] *)

Section SearchFacts.
Variable execute : Z → api_response.

(** The calls of the paging loop are consecutive pages. *)
Lemma collect_pages_requests (pages_left : nat) :
  ∀ page all_results requests,
    ∃ k, k ≤ pages_left
         ∧ (collect_pages execute pages_left page all_results requests).1
           = requests
             ++ ((λ j : nat, ((page + Z.of_nat j) * 10 + 1)%Z) <$> seq 0 k).
Proof.
  induction pages_left as [|n IH]; intros page all_results requests.
  - exists 0. split; [lia|]. cbn. now rewrite app_nil_r.
  - cbn [collect_pages].
    destruct (execute (page * 10 + 1)) as [|[items|]] eqn:E.
    + exists 1. split; [lia|]. cbn. now rewrite Z.add_0_r.
    + destruct (IH (page + 1)%Z (all_results ++ items)
                   (requests ++ [(page * 10 + 1)%Z])) as (k & Hk & ->).
      exists (S k). split; [lia|]. rewrite <- app_assoc. f_equal.
      cbn [seq fmap list_fmap app]. rewrite Z.add_0_r. f_equal.
      rewrite <- seq_shift, <- list_fmap_compose.
      apply list_fmap_ext. intros _ j _. cbn. f_equal. lia.
    + exists 1. split; [lia|]. cbn. now rewrite Z.add_0_r.
Qed.

(** When the loop ends without an exception, no call of it raised. *)
Lemma collect_pages_no_error (pages_left : nat) :
  ∀ page all_results requests requests' all_results',
    collect_pages execute pages_left page all_results requests
    = (requests', Some all_results') →
    ∀ start, start ∈ requests' →
             start ∈ requests ∨ execute start ≠ ApiError.
Proof.
  induction pages_left as [|n IH];
    intros page all_results requests requests' all_results'.
  - cbn. intros [= <- _] start H. now left.
  - cbn [collect_pages].
    destruct (execute (page * 10 + 1)) as [|[items|]] eqn:E; [done| |].
    + intros H start Hin.
      destruct (IH _ _ _ _ _ H start Hin) as [[Hold| ->%list_elem_of_singleton]
                                               %elem_of_app|Hok];
        [now left|right; congruence|now right].
    + intros [= <- _] start [Hold| ->%list_elem_of_singleton]%elem_of_app;
        [now left|right; congruence].
Qed.

(** While the pages hold items the loop gathers them in order, and it
    stops at the first page without an ['items'] list. *)
Lemma collect_pages_items (pages_left : nat) :
  ∀ (k : nat) (page_items : nat → list (gmap str str)) page all_results
    requests,
    k ≤ pages_left →
    (∀ j, j < k →
          execute ((page + Z.of_nat j) * 10 + 1)
          = ApiResult (Some (page_items j))) →
    (k < pages_left →
     execute ((page + Z.of_nat k) * 10 + 1) = ApiResult None) →
    collect_pages execute pages_left page all_results requests
    = (requests
       ++ ((λ j : nat, ((page + Z.of_nat j) * 10 + 1)%Z)
             <$> seq 0 (Nat.min (S k) pages_left)),
       Some (all_results ++ concat (page_items <$> seq 0 k))).
Proof.
  induction pages_left as [|n IH];
    intros k page_items page all_results requests Hk Hitems Hstop.
  - assert (k = 0) as -> by lia. cbn. now rewrite !app_nil_r.
  - cbn [collect_pages]. destruct k as [|k].
    + pose proof (Hstop ltac:(lia)) as H0.
      change (Z.of_nat 0) with 0%Z in H0. rewrite Z.add_0_r in H0.
      rewrite H0. cbn. now rewrite Z.add_0_r, app_nil_r.
    + pose proof (Hitems 0 ltac:(lia)) as H0.
      change (Z.of_nat 0) with 0%Z in H0. rewrite Z.add_0_r in H0.
      rewrite H0. rewrite (IH k (λ j, page_items (S j))).
      * f_equal.
        -- rewrite <- app_assoc. f_equal.
           replace (Nat.min (S (S k)) (S n)) with (S (Nat.min (S k) n)) by lia.
           cbn [seq fmap list_fmap app]. rewrite Z.add_0_r. f_equal.
           rewrite <- seq_shift, <- list_fmap_compose.
           apply list_fmap_ext. intros _ j _. cbn. f_equal. lia.
        -- f_equal. rewrite <- app_assoc. f_equal.
           cbn [seq fmap list_fmap concat]. f_equal. f_equal.
           now rewrite <- seq_shift, <- list_fmap_compose.
      * lia.
      * intros j Hj. rewrite <- (Hitems (S j)) by lia. f_equal. lia.
      * intros Hlt. rewrite <- Hstop by lia. f_equal. lia.
Qed.
End SearchFacts.

Lemma search_google_run_some (execute : Z → api_response) (num_results : Z) :
  search_google_run (Some execute) num_results
  = ((collect_pages execute (Z.to_nat ((num_results + 9) / 10)) 0 [] []).1,
     match (collect_pages execute (Z.to_nat ((num_results + 9) / 10)) 0 [] []).2
     with
     | None => []
     | Some all_results => format_item <$> slice_to all_results num_results
     end).
Proof.
  unfold search_google_run.
  now destruct (collect_pages _ _ _ _ _) as [requests [all_results|]].
Qed.

Lemma slice_to_length_le {A : Type} (l : list A) (stop : Z) :
  (0 ≤ stop)%Z → length (slice_to l stop) ≤ Z.to_nat stop.
Proof. intros H. rewrite slice_to_nonneg, length_take by done. lia. Qed.

Lemma slice_to_nil {A : Type} (stop : Z) : slice_to (@nil A) stop = [].
Proof. unfold slice_to. destruct (0 <=? stop)%Z; apply take_nil. Qed.

Lemma search_google_formatted (service : option (Z → api_response))
      (num_results : Z) (r : gmap str str) :
  r ∈ search_google service num_results → ∃ item, r = format_item item.
Proof.
  unfold search_google. destruct service as [execute|]; [|by intros ?%elem_of_nil].
  rewrite search_google_run_some. cbn [snd].
  destruct (collect_pages _ _ _ _ _).2 as [all_results|];
    [|by intros ?%elem_of_nil].
  intros (item & -> & _)%list_elem_of_fmap. now exists item.
Qed.

Lemma search_google_length (service : option (Z → api_response))
      (num_results : Z) :
  length (search_google service num_results) ≤ Z.to_nat num_results.
Proof.
  unfold search_google. destruct service as [execute|]; [|cbn; lia].
  rewrite search_google_run_some. cbn [snd].
  destruct (Z.le_gt_cases 0 num_results) as [Hpos|Hneg].
  - destruct (collect_pages _ _ _ _ _).2 as [all_results|]; [|cbn; lia].
    rewrite length_fmap. now apply slice_to_length_le.
  - assert (Z.to_nat ((num_results + 9) / 10) = 0) as ->.
    { assert ((num_results + 9) / 10 < 1)%Z
        by (apply Z.div_lt_upper_bound; lia). lia. }
    cbn [collect_pages snd]. rewrite slice_to_nil. cbn. lia.
Qed.

(** X1.  [search_google] returns at most [num_results] records, whatever
    the API answers; none for a [num_results] of zero or less. *)
Theorem search_google_at_most_num_results
        (service : option (Z → api_response)) (num_results : Z) :
  length (search_google service num_results) ≤ Z.to_nat num_results.
Proof. apply search_google_length. Qed.

(** X2.  The API is asked for consecutive pages of ten: the [start]
    indices requested are 1, 11, 21, ... in this order, there are at most
    [ceil(num_results / 10)] of them, and none exceeds [num_results]. *)
Theorem search_google_requests_consecutive_pages
        (service : option (Z → api_response)) (num_results : Z) :
  ∃ k : nat,
    (Z.of_nat k ≤ Z.max 0 ((num_results + 9) / 10))%Z
    ∧ search_requests service num_results
      = (λ j : nat, (Z.of_nat j * 10 + 1)%Z) <$> seq 0 k
    ∧ Forall (λ start, (1 ≤ start ≤ num_results)%Z)
             (search_requests service num_results).
Proof.
  unfold search_requests. destruct service as [execute|].
  - rewrite search_google_run_some. cbn [fst].
    destruct (collect_pages_requests execute
                (Z.to_nat ((num_results + 9) / 10)) 0 [] []) as (k & Hk & ->).
    exists k. cbn [app]. split; [lia|]. split; [reflexivity|].
    apply Forall_forall. intros start (j & -> & Hj)%list_elem_of_fmap.
    apply elem_of_seq in Hj.
    pose proof (Z.mul_div_le (num_results + 9) 10 ltac:(lia)). lia.
  - exists 0. cbn. split; [lia|]. split; [reflexivity|constructor].
Qed.

(** X3.  A raised call is fatal for the whole search: when any call the
    function makes raises, it returns the empty list, the items of the
    pages fetched before included. *)
Theorem search_google_error_discards_all
        (execute : Z → api_response) (num_results start : Z) :
  start ∈ search_requests (Some execute) num_results →
  execute start = ApiError →
  search_google (Some execute) num_results = [].
Proof.
  unfold search_requests, search_google. rewrite search_google_run_some.
  cbn [fst snd]. intros Hin Herr.
  destruct (collect_pages _ _ _ _ _) as [requests [all_results|]] eqn:E;
    [|reflexivity].
  destruct (collect_pages_no_error execute _ _ _ _ _ _ E start Hin)
    as [Hnil|Hok]; [by apply elem_of_nil in Hnil|done].
Qed.

(** The property at a concrete run: the first page holds an item, the
    second call raises. *)
Lemma search_google_error_discards_all_witness :
  search_google
    (Some (λ start, if (start =? 1)%Z
                    then ApiResult (Some [{[ pystr "title" := pystr "Acme" ]}])
                    else ApiError)) 20
  = [].
Proof.
  apply (search_google_error_discards_all _ 20 11).
  - vm_compute. listed.
  - reflexivity.
Defined.

(** X4.  When the first [k] pages asked for hold items and either the
    next one has no ['items'] or [k] pages are all that [num_results]
    calls for, the function returns the records of the first
    [num_results] items, in the order the API gave them, and asks for no
    page beyond the first one without items. *)
Theorem search_google_collects_in_order
        (execute : Z → api_response) (num_results : Z) (k : nat)
        (page_items : nat → list (gmap str str)) :
  k ≤ Z.to_nat ((num_results + 9) / 10) →
  (∀ j, j < k →
        execute (Z.of_nat j * 10 + 1)%Z = ApiResult (Some (page_items j))) →
  (k < Z.to_nat ((num_results + 9) / 10) →
   execute (Z.of_nat k * 10 + 1)%Z = ApiResult None) →
  search_google (Some execute) num_results
  = format_item <$> slice_to (concat (page_items <$> seq 0 k)) num_results
  ∧ search_requests (Some execute) num_results
    = (λ j : nat, (Z.of_nat j * 10 + 1)%Z)
        <$> seq 0 (Nat.min (S k) (Z.to_nat ((num_results + 9) / 10))).
Proof.
  intros Hk Hitems Hstop. unfold search_google, search_requests.
  rewrite search_google_run_some.
  rewrite (collect_pages_items execute _ k page_items); try done.
Qed.

(** The property at a concrete run: two items on the first page, none on
    the second, thirty asked for. *)
Lemma search_google_collects_in_order_witness :
  search_google
    (Some (λ start, if (start =? 1)%Z
                    then ApiResult
                           (Some [{[ pystr "title" := pystr "A | a" ]};
                                  {[ pystr "link" := pystr "https://b.example" ]}])
                    else ApiResult None)) 30
  = format_item
      <$> slice_to
            (concat ((λ _ : nat,
                        [{[ pystr "title" := pystr "A | a" ]};
                         {[ pystr "link" := pystr "https://b.example" ]}])
                       <$> seq 0 1)) 30
  ∧ search_requests
      (Some (λ start, if (start =? 1)%Z
                      then ApiResult
                             (Some [{[ pystr "title" := pystr "A | a" ]};
                                    {[ pystr "link" := pystr "https://b.example" ]}])
                      else ApiResult None)) 30
    = (λ j : nat, (Z.of_nat j * 10 + 1)%Z)
        <$> seq 0 (Nat.min (S 1) (Z.to_nat ((30 + 9) / 10))).
Proof.
  apply (search_google_collects_in_order _ 30 1).
  - vm_compute. lia.
  - intros j Hj. assert (j = 0) as -> by lia. reflexivity.
  - intros _. reflexivity.
Defined.

Lemma format_item_has_title (item : gmap str str) :
  has_title (format_item item) = true.
Proof. apply bool_decide_eq_true. eexists. reflexivity. Qed.

Lemma search_google_has_title (service : option (Z → api_response))
      (num_results : Z) :
  forallb has_title (search_google service num_results) = true.
Proof.
  apply forallb_forall. intros r Hr%list_elem_of_In.
  apply search_google_formatted in Hr as (item & ->).
  apply format_item_has_title.
Qed.

(** X5.  Every record [search_google] returns is complete: it holds its
    title, link and snippet, the source label, a display name derived
    from its own title and free of separators, and all six
    contact-signal fields, empty. *)
Theorem search_google_records_complete
        (service : option (Z → api_response)) (num_results : Z)
        (r : gmap str str) :
  r ∈ search_google service num_results →
  ∃ title,
    r !! pystr "title" = Some title
    ∧ r !! pystr "company_name" = Some (_extract_company_name title)
    ∧ has_separator (_extract_company_name title) = false
    ∧ is_Some (r !! pystr "website_url")
    ∧ is_Some (r !! pystr "snippet")
    ∧ r !! pystr "source" = Some (pystr "Google Search")
    ∧ Forall (λ key, r !! key = Some []) signal_keys.
Proof.
  intros (item & ->)%search_google_formatted.
  exists (get_or_empty item (pystr "title")). unfold format_item.
  split; [reflexivity|]. split; [reflexivity|].
  split; [apply company_name_clean|].
  split; [eexists; reflexivity|]. split; [eexists; reflexivity|].
  split; [reflexivity|]. apply formatted_result_signals.
Qed.

(** The property at a concrete run: one item without a snippet. *)
Lemma search_google_records_complete_witness :
  ∃ title,
    format_item {[ pystr "title" := pystr "Acme - Shop" ]} !! pystr "title"
    = Some title
    ∧ format_item {[ pystr "title" := pystr "Acme - Shop" ]}
      !! pystr "company_name" = Some (_extract_company_name title)
    ∧ has_separator (_extract_company_name title) = false
    ∧ is_Some (format_item {[ pystr "title" := pystr "Acme - Shop" ]}
               !! pystr "website_url")
    ∧ is_Some (format_item {[ pystr "title" := pystr "Acme - Shop" ]}
               !! pystr "snippet")
    ∧ format_item {[ pystr "title" := pystr "Acme - Shop" ]} !! pystr "source"
      = Some (pystr "Google Search")
    ∧ Forall (λ key,
              format_item {[ pystr "title" := pystr "Acme - Shop" ]} !! key
              = Some []) signal_keys.
Proof.
  apply (search_google_records_complete
           (Some (λ _, ApiResult
                         (Some [{[ pystr "title" := pystr "Acme - Shop" ]}])))
           5).
  apply (bool_decide_unpack _). vm_compute. exact I.
Defined.

Lemma process_search_google_returns
      (order : set_order) (fetch : nat → str → response)
      (service : option (Z → api_response)) (num_results : Z) :
  process_search_results order fetch (search_google service num_results)
                         num_results
  = Returned (imap (λ i result, scan_candidate order (fetch i) result)
                   (search_google service num_results)).
Proof.
  pose proof (search_google_length service num_results) as Hlen.
  destruct (Z.le_gt_cases 0 num_results) as [Hpos|Hneg].
  - rewrite process_search_results_returns
      by (done || apply search_google_has_title).
    now rewrite take_ge by lia.
  - destruct (search_google service num_results) as [|r rs]; [|cbn in Hlen; lia].
    unfold process_search_results. now rewrite slice_to_nil.
Qed.

(** X6.  The pipeline as [main] runs it,
    [process_search_results(search_google(..., n), n)]: the status line
    never meets a missing title, and the output holds one record for
    every search hit, in order; no hit is cut off by the scan limit. *)
Theorem pipeline_keeps_every_search_hit
        (order : set_order) (fetch : nat → str → response)
        (service : option (Z → api_response)) (num_results : Z) :
  process_search_results order fetch (search_google service num_results)
                         num_results
  = Returned (imap (λ i result, scan_candidate order (fetch i) result)
                   (search_google service num_results))
  ∧ length (imap (λ i result, scan_candidate order (fetch i) result)
                 (search_google service num_results))
    = length (search_google service num_results).
Proof.
  split; [apply process_search_google_returns|apply length_imap].
Qed.

(** ** More on display names, addresses and profile links *)

Lemma before_first_prefix (p : char → bool) (s : str) :
  ∃ rest, s = before_first p s ++ rest.
Proof.
  induction s as [|c s (rest & IH)]; [now exists []|]. cbn.
  destruct (p c); [now exists (c :: s)|].
  exists rest. cbn. now rewrite <- IH.
Qed.

Lemma lstrip_suffix (s : str) : ∃ ws, s = ws ++ Str.lstrip s.
Proof.
  induction s as [|c s (ws & IH)]; [now exists []|]. cbn.
  destruct (Str.isspace c); [|now exists []].
  exists (c :: ws). cbn. now rewrite <- IH.
Qed.

Lemma rstrip_prefix (s : str) : ∃ ws, s = Str.rstrip s ++ ws.
Proof.
  induction s as [|c s (ws & IH)]; [now exists []|]. cbn [Str.rstrip].
  destruct (forallb Str.isspace (c :: s)); [now exists (c :: s)|].
  exists ws. cbn. now rewrite <- IH.
Qed.

Lemma strip_substring (s : str) : substring (Str.strip s) s.
Proof.
  unfold Str.strip. destruct (lstrip_suffix s) as (ws1 & E1).
  destruct (rstrip_prefix (Str.lstrip s)) as (ws2 & E2).
  exists ws1, ws2. now rewrite <- E2.
Qed.

(** X7.  The display name is cut out of the title: it is a contiguous
    piece of the title, never longer than it, and holds no separator. *)
Theorem company_name_within_title (title : str) :
  substring (_extract_company_name title) title
  ∧ length (_extract_company_name title) ≤ length title
  ∧ has_separator (_extract_company_name title) = false.
Proof.
  assert (S : substring (_extract_company_name title) title).
  { rewrite company_name_cases. destruct (has_separator title).
    - destruct (strip_substring (leftmost_segment title)) as (b & a & E).
      destruct (before_first_prefix is_separator title) as (rest & Ht).
      exists b, (a ++ rest). unfold leftmost_segment in E.
      rewrite Ht at 1. rewrite E at 1. now rewrite <- !app_assoc.
    - exists [], []. now rewrite app_nil_r. }
  split; [exact S|]. split; [|apply company_name_clean].
  destruct S as (b & a & E). rewrite E at 2. rewrite !length_app. lia.
Qed.

(** X8.  [_extract_emails] returns every distinct match exactly once:
    the list has no duplicates and holds the same addresses as the scan
    of the text. *)
Theorem extract_emails_distinct (order : set_order) (text : str) :
  NoDup (_extract_emails order text)
  ∧ (∀ e, e ∈ _extract_emails order text ↔ e ∈ findall email_pattern text)
  ∧ length (_extract_emails order text)
    ≤ length (findall email_pattern text).
Proof.
  split; [|split; [intros e; apply extract_emails_elem|]].
  - unfold _extract_emails. destruct (negb _); [constructor|].
    rewrite (set_iter_perm order). apply NoDup_remove_dups.
  - unfold _extract_emails. destruct (negb _); [cbn; lia|].
    rewrite (set_iter_perm order). apply submseteq_length, NoDup_submseteq.
    + apply NoDup_remove_dups.
    + intros e. apply elem_of_remove_dups.
Qed.

Section SignalFacts.
Variables (order : set_order) (get : str → response).

Lemma emails_head_sound (pg : page) (e : str) (es : list str) :
  _extract_emails order (text pg) ++ _extract_emails order (html_source pg)
  = e :: es →
  valid_email e ∧ (substring e (text pg) ∨ substring e (html_source pg)).
Proof.
  intros E.
  assert (e ∈ _extract_emails order (text pg)
                ++ _extract_emails order (html_source pg)) as H
      by (rewrite E; apply list_elem_of_here).
  apply elem_of_app in H as [[S V]%extract_emails_sound
                            |[S V]%extract_emails_sound]; auto.
Qed.

Lemma store_sns_url_keeps (result : gmap str str) (item : str * str)
      (key : str) :
  (is_Some (result !! key) → is_Some (store_sns_url result item !! key))
  ∧ (store_sns_url result item !! key = Some [] → result !! key = Some []).
Proof.
  unfold store_sns_url. destruct item as [k v]. cbn [fst snd].
  destruct v as [|c v]; cbn [Str.truthy]; [done|].
  rewrite lookup_insert. case_decide; [|done]. split; [eauto|done].
Qed.

Lemma store_sns_urls_keep (d : Dict.t) :
  ∀ (result : gmap str str) (key : str),
    (is_Some (result !! key) →
     is_Some (fold_left store_sns_url d result !! key))
    ∧ (fold_left store_sns_url d result !! key = Some [] →
       result !! key = Some []).
Proof.
  induction d as [|item d IH]; intros result key; [done|].
  cbn [fold_left].
  destruct (IH (store_sns_url result item) key) as [I1 I2].
  destruct (store_sns_url_keeps result item key) as [S1 S2]. auto.
Qed.
End SignalFacts.

(** X9.  The [email] of a record after [extract_contact_info] is either
    the one it had before or a well-formed address that occurs in the
    visible text or in the raw markup of the fetched page. *)
Theorem extract_contact_info_email_provenance
        (order : set_order) (get : str → response) (result : gmap str str)
        (e : str) :
  extract_contact_info order get result !! pystr "email" = Some e →
  result !! pystr "email" = Some e
  ∨ (valid_email e
     ∧ ∃ pg, get (get_or_empty result (pystr "website_url")) = Fetched pg
             ∧ (substring e (text pg) ∨ substring e (html_source pg))).
Proof.
  destruct (Str.truthy (get_or_empty result (pystr "website_url"))) eqn:Hurl.
  - destruct (get (get_or_empty result (pystr "website_url"))) as [|pg] eqn:Hget.
    + rewrite extract_contact_info_failed by done. now left.
    + rewrite (extract_contact_info_email order get result pg) by done.
      destruct (_ ++ _) as [|e' es] eqn:E; [now left|].
      intros [= ->]. right.
      destruct (emails_head_sound order pg e es E) as [V S]. eauto.
  - unfold extract_contact_info. rewrite Hurl. now left.
Qed.

(** The property at a concrete page. *)
Lemma extract_contact_info_email_provenance_witness :
  formatted_result (pystr "Acme") (pystr "https://acme.example") []
  !! pystr "email" = Some (pystr "hello@acme.example")
  ∨ (valid_email (pystr "hello@acme.example")
     ∧ ∃ pg,
         (λ _ : str,
            Fetched {| text := pystr "write to hello@acme.example";
                       html_source := pystr "<p>write to hello@acme.example</p>";
                       links := [] |})
           (get_or_empty
              (formatted_result (pystr "Acme") (pystr "https://acme.example") [])
              (pystr "website_url"))
         = Fetched pg
         ∧ (substring (pystr "hello@acme.example") (text pg)
            ∨ substring (pystr "hello@acme.example") (html_source pg))).
Proof.
  apply (extract_contact_info_email_provenance first_seen_order).
  vm_compute. reflexivity.
Defined.

Lemma profile_url_last_anchor
      (order : set_order) (get : str → response) (result : gmap str str)
      (pg : page) (key : str) :
  Str.truthy (get_or_empty result (pystr "website_url")) = true →
  get (get_or_empty result (pystr "website_url")) = Fetched pg →
  key ∈ sns_keys →
  extract_contact_info order get result !! (key ++ pystr "_url")
  = match last (filter (λ href, attribution platform_domains href = Some key)
                       (links pg)) with
    | Some href => Some href
    | None => result !! (key ++ pystr "_url")
    end.
Proof.
  intros Hurl Hget Hkey.
  rewrite (extract_contact_info_profile_url order get result pg key) by done.
  unfold _extract_sns_urls_from_links. rewrite anchor_scan_get.
  destruct (last _) as [href|] eqn:L.
  - apply last_Some_elem_of, list_elem_of_filter in L as [A _].
    destruct href as [|c href]; [|reflexivity].
    vm_compute in A. discriminate A.
  - destruct (sns_keys_cases _ Hkey) as [->|[->|[->|[->| ->]]]]; reflexivity.
Qed.

(** X10.  For each platform, the profile field of a record after a
    successful fetch holds the [href] of the last anchor attributed to
    that platform; when the page has no such anchor the field keeps the
    value it had, whatever profile URL the markup spells out. *)
Theorem extract_contact_info_profile_from_anchors
        (order : set_order) (get : str → response) (result : gmap str str)
        (pg : page) (key : str) :
  Str.truthy (get_or_empty result (pystr "website_url")) = true →
  get (get_or_empty result (pystr "website_url")) = Fetched pg →
  key ∈ sns_keys →
  extract_contact_info order get result !! (key ++ pystr "_url")
  = match last (filter (λ href, attribution platform_domains href = Some key)
                       (links pg)) with
    | Some href => Some href
    | None => result !! (key ++ pystr "_url")
    end.
Proof. apply profile_url_last_anchor. Qed.

(** The property at a concrete page: the markup names an Instagram
    profile, the only anchor goes to Facebook. *)
Lemma extract_contact_info_profile_from_anchors_witness :
  extract_contact_info first_seen_order
    (λ _, Fetched {| text := pystr "instagram.com/acme";
                     html_source := pystr "<a href=...>instagram.com/acme</a>";
                     links := [pystr "https://facebook.com/acme"] |})
    (formatted_result (pystr "Acme") (pystr "https://acme.example") [])
  !! (pystr "instagram" ++ pystr "_url")
  = match last (filter
                  (λ href, attribution platform_domains href
                           = Some (pystr "instagram"))
                  (links {| text := pystr "instagram.com/acme";
                            html_source :=
                              pystr "<a href=...>instagram.com/acme</a>";
                            links := [pystr "https://facebook.com/acme"] |}))
    with
    | Some href => Some href
    | None =>
      formatted_result (pystr "Acme") (pystr "https://acme.example") []
      !! (pystr "instagram" ++ pystr "_url")
    end.
Proof.
  apply extract_contact_info_profile_from_anchors.
  - vm_compute. reflexivity.
  - reflexivity.
  - by_evaluation.
Defined.

(** X11.  [extract_contact_info] only ever adds information: a key the
    record held is still there afterwards, and no field is overwritten
    by the empty string. *)
Theorem extract_contact_info_never_blanks
        (order : set_order) (get : str → response) (result : gmap str str)
        (key : str) :
  (is_Some (result !! key) →
   is_Some (extract_contact_info order get result !! key))
  ∧ (extract_contact_info order get result !! key = Some [] →
     result !! key = Some []).
Proof.
  unfold extract_contact_info. destruct (negb _); [done|].
  destruct (get _) as [|pg]; [done|].
  match goal with
  | |- context [fold_left store_sns_url ?d ?r] =>
    destruct (store_sns_urls_keep d r key) as [K1 K2]
  end.
  destruct (_extract_emails order (text pg) ++ _) as [|e es] eqn:E.
  - split; [exact K1|exact K2].
  - destruct (emails_head_sound order pg e es E) as [V _].
    apply valid_email_nonempty in V.
    split; intros H.
    + apply K1. rewrite lookup_insert. case_decide; [eauto|exact H].
    + apply K2 in H. rewrite lookup_insert in H.
      case_decide; [congruence|exact H].
Qed.

(** The property at a concrete record: a profile link known beforehand
    survives a page without anchors. *)
Lemma extract_contact_info_never_blanks_witness :
  is_Some
    (extract_contact_info first_seen_order
       (λ _, Fetched {| text := pystr "nothing here"; html_source := [];
                        links := [] |})
       (<[pystr "x_url" := pystr "https://x.com/acme"]>
          (formatted_result (pystr "Acme") (pystr "https://acme.example") []))
     !! pystr "x_url").
Proof.
  apply (proj1 (extract_contact_info_never_blanks first_seen_order _ _ _)).
  eexists. reflexivity.
Defined.

(** ** The result filters *)

Section FilterFacts.

Lemma filter_and {A : Type} (p q : A → bool) (l : list A) :
  List.filter q (List.filter p l) = List.filter (λ x, p x && q x) l.
Proof.
  induction l as [|x l IH]; [done|]. cbn.
  destruct (p x); cbn; [|exact IH]. destruct (q x); now rewrite IH.
Qed.

Lemma filter_all {A : Type} (l : list A) : List.filter (λ _, true) l = l.
Proof. induction l as [|x l IH]; [done|]. cbn. now rewrite IH. Qed.

Lemma filter_is_sublist {A : Type} (p : A → bool) (l : list A) :
  List.filter p l `sublist_of` l.
Proof.
  induction l as [|x l IH]; [constructor|]. cbn.
  destruct (p x); now constructor.
Qed.

Lemma checkbox_filter (checked : bool) (key : str)
      (l : list (gmap str str)) :
  (if checked then keep_if key l else l)
  = List.filter (λ item, implb checked (Str.truthy (get_or_empty item key))) l.
Proof. destruct checked; [reflexivity|]. cbn [implb]. now rewrite filter_all. Qed.

Lemma apply_filters_passes (fi ft fy fe : bool) (l : list (gmap str str)) :
  apply_filters fi ft fy fe l = List.filter (passes fi ft fy fe) l.
Proof.
  unfold apply_filters. cbv zeta.
  rewrite !checkbox_filter, !filter_and.
  apply List.filter_ext. intros item. unfold passes.
  now rewrite !andb_assoc.
Qed.

Lemma passes_both (a1 a2 a3 a4 b1 b2 b3 b4 : bool) (item : gmap str str) :
  passes (a1 || b1) (a2 || b2) (a3 || b3) (a4 || b4) item
  = passes b1 b2 b3 b4 item && passes a1 a2 a3 a4 item.
Proof.
  unfold passes.
  destruct (Str.truthy (get_or_empty item (pystr "instagram_url"))),
           (Str.truthy (get_or_empty item (pystr "tiktok_url"))),
           (Str.truthy (get_or_empty item (pystr "youtube_url"))),
           (Str.truthy (get_or_empty item (pystr "email")));
    destruct a1, a2, a3, a4, b1, b2, b3, b4; reflexivity.
Qed.
End FilterFacts.

(** X12.  The four checkboxes act as one conjunctive filter: the list
    shown holds exactly the records of the search results that have a
    non-empty field for every checked box, in their original order. *)
Theorem apply_filters_keeps_passing_records
        (filter_instagram filter_tiktok filter_youtube filter_email : bool)
        (search_results : list (gmap str str)) :
  apply_filters filter_instagram filter_tiktok filter_youtube filter_email
                search_results
  = List.filter
      (passes filter_instagram filter_tiktok filter_youtube filter_email)
      search_results
  ∧ apply_filters filter_instagram filter_tiktok filter_youtube filter_email
                  search_results
    `sublist_of` search_results
  ∧ apply_filters false false false false search_results = search_results.
Proof.
  split; [apply apply_filters_passes|]. split.
  - rewrite apply_filters_passes. apply filter_is_sublist.
  - reflexivity.
Qed.

(** X13.  Filtering an already filtered list is filtering once with the
    boxes of both rounds checked; so the order of the rounds does not
    matter and a second round with the same boxes changes nothing. *)
Theorem apply_filters_twice
        (a1 a2 a3 a4 b1 b2 b3 b4 : bool) (l : list (gmap str str)) :
  apply_filters a1 a2 a3 a4 (apply_filters b1 b2 b3 b4 l)
  = apply_filters (a1 || b1) (a2 || b2) (a3 || b3) (a4 || b4) l
  ∧ apply_filters a1 a2 a3 a4 (apply_filters b1 b2 b3 b4 l)
    = apply_filters b1 b2 b3 b4 (apply_filters a1 a2 a3 a4 l)
  ∧ apply_filters a1 a2 a3 a4 (apply_filters a1 a2 a3 a4 l)
    = apply_filters a1 a2 a3 a4 l.
Proof.
  assert (G : ∀ a1 a2 a3 a4 b1 b2 b3 b4,
             apply_filters a1 a2 a3 a4 (apply_filters b1 b2 b3 b4 l)
             = apply_filters (a1 || b1) (a2 || b2) (a3 || b3) (a4 || b4) l).
  { intros. rewrite !apply_filters_passes, filter_and.
    apply List.filter_ext. intros item. now rewrite passes_both. }
  split; [apply G|]. split.
  - rewrite !G. now rewrite (orb_comm a1), (orb_comm a2), (orb_comm a3),
                            (orb_comm a4).
  - rewrite G. now rewrite !orb_diag.
Qed.

(** X14.  A search hit whose page could not be fetched has nothing to
    show: as soon as one box is checked, it is filtered out. *)
Theorem failed_fetch_filtered_out
        (order : set_order) (get : str → response)
        (service : option (Z → api_response)) (num_results : Z)
        (r : gmap str str) (fi ft fy fe : bool) :
  r ∈ search_google service num_results →
  get (get_or_empty r (pystr "website_url")) = Failed →
  fi || ft || fy || fe = true →
  apply_filters fi ft fy fe [scan_candidate order get r] = [].
Proof.
  intros (item & ->)%search_google_formatted Hget Hflag.
  rewrite scan_candidate_failed by done. rewrite apply_filters_passes.
  cbn [List.filter].
  replace (passes fi ft fy fe (format_item item)) with false; [done|].
  destruct fi, ft, fy, fe; try discriminate Hflag; reflexivity.
Qed.

(** The property at a concrete run. *)
Lemma failed_fetch_filtered_out_witness :
  apply_filters false true false false
    [scan_candidate first_seen_order (λ _, Failed)
       (format_item {[ pystr "link" := pystr "https://acme.example" ]})]
  = [].
Proof.
  apply (failed_fetch_filtered_out _ _
           (Some (λ _, ApiResult
                         (Some [{[ pystr "link"
                                   := pystr "https://acme.example" ]}]))) 3).
  - apply (bool_decide_unpack _). vm_compute. exact I.
  - reflexivity.
  - reflexivity.
Defined.

Lemma attribution_instagram (href : str) :
  attribution platform_domains href = Some (pystr "instagram")
  ↔ Str.contains (pystr "instagram.com") href = true.
Proof.
  unfold platform_domains. cbn [attribution mentions existsb].
  rewrite orb_false_r.
  destruct (Str.contains (pystr "instagram.com") href); [done|].
  split; [|done].
  repeat match goal with
         | |- context [if ?b then _ else _] => destruct b
         end; intros [= E]; vm_compute in E; discriminate E.
Qed.

Lemma last_instagram_anchor (hrefs : list str) :
  match last (filter (λ href, attribution platform_domains href
                              = Some (pystr "instagram")) hrefs) with
  | Some href => Str.truthy href
  | None => false
  end
  = existsb (Str.contains (pystr "instagram.com")) hrefs.
Proof.
  induction hrefs as [|h hrefs IH] using rev_ind; [done|].
  rewrite filter_app, existsb_app. cbn [existsb]. rewrite orb_false_r.
  destruct (Str.contains (pystr "instagram.com") h) eqn:C.
  - rewrite filter_cons_True by now apply attribution_instagram.
    rewrite filter_nil, last_snoc, orb_true_r.
    destruct h; [discriminate C|reflexivity].
  - rewrite filter_cons_False
      by (intros A%attribution_instagram; congruence).
    now rewrite filter_nil, app_nil_r, orb_false_r.
Qed.

(** X15.  After a successful fetch of a fresh search hit, the Instagram
    checkbox keeps the record exactly when some anchor of the page has an
    [href] containing [instagram.com]; a profile named only in the text
    or markup does not count. *)
Theorem instagram_filter_follows_anchors
        (order : set_order) (get : str → response) (item : gmap str str)
        (pg : page) :
  Str.truthy (get_or_empty (format_item item) (pystr "website_url")) = true →
  get (get_or_empty (format_item item) (pystr "website_url")) = Fetched pg →
  passes true false false false
         (extract_contact_info order get (format_item item))
  = existsb (Str.contains (pystr "instagram.com")) (links pg).
Proof.
  intros Hurl Hget. unfold passes. cbn [implb]. rewrite !andb_true_r.
  rewrite <- last_instagram_anchor. unfold get_or_empty at 1.
  change (pystr "instagram_url") with (pystr "instagram" ++ pystr "_url").
  rewrite (profile_url_last_anchor order get _ pg) by (done || by_evaluation).
  now destruct (last _).
Qed.

(** The property at a concrete page: Instagram is named in the text, the
    anchors go elsewhere. *)
Lemma instagram_filter_follows_anchors_witness :
  passes true false false false
    (extract_contact_info first_seen_order
       (λ _, Fetched {| text := pystr "https://instagram.com/acme";
                        html_source := pystr "https://instagram.com/acme";
                        links := [pystr "/about"; pystr "https://x.com/acme"] |})
       (format_item {[ pystr "link" := pystr "https://acme.example" ]}))
  = existsb (Str.contains (pystr "instagram.com"))
            (links {| text := pystr "https://instagram.com/acme";
                      html_source := pystr "https://instagram.com/acme";
                      links := [pystr "/about"; pystr "https://x.com/acme"] |}).
Proof.
  apply instagram_filter_follows_anchors; reflexivity.
Defined.

(** ** The sidebar *)

Lemma sidebar_step_ok (json_loads_ok : str → bool) (api_keys : gmap str str)
      (google_api_key google_cx service_account_json : str) :
  api_keys_ok json_loads_ok api_keys →
  api_keys_ok json_loads_ok
    (sidebar json_loads_ok api_keys google_api_key google_cx
             service_account_json).
Proof.
  intros Hok. unfold sidebar.
  assert (Hfirst : api_keys_ok json_loads_ok
            (if Str.truthy google_api_key && Str.truthy google_cx
             then <[pystr "google_cx" := google_cx]>
                    (<[pystr "google_api_key" := google_api_key]> api_keys)
             else api_keys)).
  { destruct google_api_key as [|a ak], google_cx as [|c cx];
      cbn [Str.truthy andb]; try exact Hok.
    destruct Hok as (Hpair & Hkey & Hcx & Hjson).
    split; [|split; [|split]].
    - rewrite lookup_insert_eq, lookup_insert_ne by distinct_keys.
      rewrite lookup_insert_eq. split; eauto.
    - rewrite lookup_insert_ne by distinct_keys.
      now rewrite lookup_insert_eq.
    - now rewrite lookup_insert_eq.
    - intros json H. rewrite !lookup_insert_ne in H by distinct_keys.
      now apply Hjson. }
  destruct service_account_json as [|j js]; cbn [Str.truthy];
    [exact Hfirst|].
  destruct (json_loads_ok (j :: js)) eqn:J; [|exact Hfirst].
  destruct Hfirst as (Hpair & Hkey & Hcx & Hjson).
  split; [|split; [|split]];
    rewrite ?lookup_insert_ne by distinct_keys; try done.
  intros json H. rewrite lookup_insert_eq in H. now injection H as <-.
Qed.

(** X16.  Whatever is typed into the sidebar over any number of reruns,
    starting from the empty [api_keys]: the API key and the engine id are
    stored together or not at all, neither is ever stored empty, and a
    stored service account is non-empty text that [json.loads] accepted. *)
Theorem sidebar_keeps_credentials_usable
        (json_loads_ok : str → bool) (inputs : list (str * str * str)) :
  api_keys_ok json_loads_ok
    (fold_left (λ api_keys input,
                sidebar json_loads_ok api_keys input.1.1 input.1.2 input.2)
               inputs ∅).
Proof.
  assert (G : ∀ api_keys,
             api_keys_ok json_loads_ok api_keys →
             api_keys_ok json_loads_ok
               (fold_left (λ api_keys input,
                           sidebar json_loads_ok api_keys
                                   input.1.1 input.1.2 input.2)
                          inputs api_keys)).
  { induction inputs as [|input inputs IH]; intros api_keys Hok; [done|].
    cbn [fold_left]. now apply IH, sidebar_step_ok. }
  apply G. repeat split; done.
Qed.

(** ** The export projection *)

Lemma if_bool_ext {A : Type} (b1 b2 : bool) (x y : A) :
  b1 = b2 → (if b1 then x else y) = (if b2 then x else y).
Proof. now intros ->. Qed.

Lemma filtered_item_columns (item : gmap str str) :
  filtered_item item = (λ col, (col, get_or_empty item col)) <$> columns.
Proof. reflexivity. Qed.

(** X17.  An exported row holds the eight columns, in the fixed order,
    and nothing else: each cell is the record's value or the empty string
    when the record lacks the field, and the title, the snippet and the
    source label are not exported.  One row is produced per record. *)
Theorem filtered_data_has_fixed_columns (data : list (gmap str str)) :
  Forall (λ row, row.*1 = columns) (filtered_data data)
  ∧ length (filtered_data data) = length data
  ∧ ∀ item col,
      Dict.get (filtered_item item) col
      = if bool_decide (col ∈ columns) then Some (get_or_empty item col)
        else None.
Proof.
  split; [|split].
  - apply Forall_forall. intros row (item & -> & _)%list_elem_of_fmap.
    reflexivity.
  - apply length_fmap.
  - intros item col. rewrite filtered_item_columns.
    generalize columns. intros cols.
    induction cols as [|c cols IH]; [done|].
    cbn [fmap list_fmap Dict.get]. rewrite IH.
    destruct (decide (c = col)) as [->|Hne].
    + rewrite bool_decide_eq_true_2 by done.
      now rewrite bool_decide_eq_true_2 by apply list_elem_of_here.
    + rewrite (bool_decide_eq_false_2 (c = col)) by done.
      apply if_bool_ext. apply bool_decide_ext.
      rewrite elem_of_cons.
      split; [now right|intros [E|E]; [congruence|exact E]].
Qed.

(** ** The detail view *)

Section DetailFacts.

Lemma link_line_length (result : gmap str str) (label key : str) :
  length (link_line result label key) ≤ 1.
Proof. unfold link_line. destruct (Str.truthy _); cbn; lia. Qed.

Lemma detail_view_returns (i : nat) (result : gmap str str) :
  Forall (λ key, is_Some (result !! key)) display_keys →
  ∃ lines, detail_view i result = Returned lines
           ∧ 4 ≤ length lines ≤ 10.
Proof.
  intros H. rewrite Forall_forall in H.
  destruct (H (pystr "title") ltac:(by_evaluation)) as [title Ht].
  destruct (H (pystr "website_url") ltac:(by_evaluation)) as [url Hu].
  destruct (H (pystr "snippet") ltac:(by_evaluation)) as [snippet Hs].
  destruct (H (pystr "company_name") ltac:(by_evaluation)) as [name Hn].
  unfold detail_view, subscript. rewrite Hn, Ht, Hs, Hu. cbn [and_then].
  eexists. split; [reflexivity|].
  rewrite !length_app.
  pose proof (link_line_length result (pystr "Instagram") (pystr "instagram_url")).
  pose proof (link_line_length result (pystr "TikTok") (pystr "tiktok_url")).
  pose proof (link_line_length result (pystr "YouTube") (pystr "youtube_url")).
  pose proof (link_line_length result (pystr "X (Twitter)") (pystr "x_url")).
  pose proof (link_line_length result (pystr "Facebook") (pystr "facebook_url")).
  destruct (Str.truthy (get_or_empty result (pystr "email"))); cbn [length]; lia.
Qed.

Lemma detail_view_key_error (i : nat) (result : gmap str str) (key : str) :
  detail_view i result = KeyError key →
  key ∈ display_keys ∧ result !! key = None.
Proof.
  unfold detail_view, subscript.
  destruct (result !! pystr "company_name") eqn:Hn; cbn [and_then];
    [|intros [= <-]; split; [by_evaluation|done]].
  destruct (result !! pystr "title") eqn:Ht; cbn [and_then];
    [|intros [= <-]; split; [by_evaluation|done]].
  destruct (result !! pystr "snippet") eqn:Hs; cbn [and_then];
    [|intros [= <-]; split; [by_evaluation|done]].
  destruct (result !! pystr "website_url") eqn:Hu; cbn [and_then];
    [done|intros [= <-]; split; [by_evaluation|done]].
Qed.

Lemma detail_views_return (filtered_results : list (gmap str str)) :
  ∀ i,
    Forall (λ result, Forall (λ key, is_Some (result !! key)) display_keys)
           filtered_results →
    ∃ views, detail_views i filtered_results = Returned views
             ∧ length views = length filtered_results.
Proof.
  induction filtered_results as [|result rest IH]; intros i Hall.
  - now exists [].
  - apply Forall_cons in Hall as [Hr Hrest].
    destruct (detail_view_returns i result Hr) as (view & Ev & _).
    destruct (IH (S i) Hrest) as (views & Evs & Hlen).
    exists (view :: views). cbn [detail_views]. rewrite Ev, Evs.
    cbn. now rewrite Hlen.
Qed.

Lemma format_item_complete (item : gmap str str) :
  Forall (λ key, is_Some (format_item item !! key)) display_keys.
Proof. repeat constructor; eexists; reflexivity. Qed.

Lemma scan_candidate_complete (order : set_order) (get : str → response)
      (result : gmap str str) :
  Forall (λ key, is_Some (result !! key)) display_keys →
  Forall (λ key, is_Some (scan_candidate order get result !! key)) display_keys.
Proof.
  rewrite !Forall_forall. intros H key Hkey.
  rewrite scan_candidate_frame by done. now apply H.
Qed.

Lemma filter_Forall {A : Type} (P : A → Prop) (p : A → bool) (l : list A) :
  Forall P l → Forall P (List.filter p l).
Proof.
  induction 1 as [|x l Hx Hl IH]; [constructor|]. cbn.
  destruct (p x); [now constructor|exact IH].
Qed.

Lemma imap_Forall {A B : Type} (P : A → Prop) (Q : B → Prop)
      (f : nat → A → B) (l : list A) :
  (∀ i x, P x → Q (f i x)) → Forall P l → Forall Q (imap f l).
Proof.
  intros Hf H. revert f Hf.
  induction H as [|x l Hx Hl IH]; intros f Hf; [constructor|].
  cbn. constructor; [now apply Hf|]. apply IH. intros i y. apply Hf.
Qed.

Lemma search_google_complete (service : option (Z → api_response))
      (num_results : Z) :
  Forall (λ result, Forall (λ key, is_Some (result !! key)) display_keys)
         (search_google service num_results).
Proof.
  apply Forall_forall. intros r (item & ->)%search_google_formatted.
  apply format_item_complete.
Qed.
End DetailFacts.

(** X18.  One entry of the detail view is rendered exactly when the
    record holds [company_name], [title], [snippet] and [website_url];
    otherwise the run ends with the [KeyError] of one of these four.  A
    missing or empty contact field never fails: its line is left out,
    so an entry has between four and ten lines. *)
Theorem detail_view_needs_display_fields (i : nat) (result : gmap str str) :
  (Forall (λ key, is_Some (result !! key)) display_keys →
   ∃ lines, detail_view i result = Returned lines ∧ 4 ≤ length lines ≤ 10)
  ∧ (∀ key, detail_view i result = KeyError key →
            key ∈ display_keys ∧ result !! key = None).
Proof.
  split; [apply detail_view_returns|apply detail_view_key_error].
Qed.

(** The property at a concrete record without a title. *)
Lemma detail_view_needs_display_fields_witness :
  pystr "title" ∈ display_keys
  ∧ ({[ pystr "company_name" := pystr "Acme" ]} : gmap str str) !! pystr "title"
    = None.
Proof.
  apply (proj2 (detail_view_needs_display_fields
                  0 {[ pystr "company_name" := pystr "Acme" ]})).
  reflexivity.
Defined.

(** X19.  What the pipeline produces can always be shown: for the
    records of [search_google], processed and then filtered with any
    boxes checked, the detail view renders one entry per record and
    never meets a missing key. *)
Theorem detail_views_render_pipeline_output
        (order : set_order) (fetch : nat → str → response)
        (service : option (Z → api_response)) (num_results : Z)
        (fi ft fy fe : bool) :
  ∃ views,
    detail_views 0
      (apply_filters fi ft fy fe
         (imap (λ i result, scan_candidate order (fetch i) result)
               (search_google service num_results)))
    = Returned views
    ∧ length views
      = length (apply_filters fi ft fy fe
                  (imap (λ i result, scan_candidate order (fetch i) result)
                        (search_google service num_results))).
Proof.
  apply detail_views_return. rewrite apply_filters_passes.
  apply filter_Forall.
  apply (imap_Forall
           (λ result, Forall (λ key, is_Some (result !! key)) display_keys)).
  - intros i r. apply scan_candidate_complete.
  - apply search_google_complete.
Qed.

(** ** [export_to_google_spreadsheet] *)

(** X20.  The sheet is written at most once, as the last call, and only
    after it has been cleared or created; a run that returns [True] has
    removed the temporary credentials file, made exactly two calls, and
    written the frame of the projected records, one row per record. *)
Theorem export_writes_after_clear_or_create
        (w : sheet_world) (data : list (gmap str str)) :
  sheet_calls (export_to_google_spreadsheet w data)
  ∈ [ []; [Clear]; [Clear; Update (filtered_data data)];
      [Clear; AddWorksheet 1000 20];
      [Clear; AddWorksheet 1000 20; Update (filtered_data data)];
      [AddWorksheet 1000 20];
      [AddWorksheet 1000 20; Update (filtered_data data)] ]
  ∧ (returned (export_to_google_spreadsheet w data) = true →
     tempfile_left (export_to_google_spreadsheet w data) = false
     ∧ (sheet_calls (export_to_google_spreadsheet w data)
        = [Clear; Update (filtered_data data)]
        ∨ sheet_calls (export_to_google_spreadsheet w data)
          = [AddWorksheet 1000 20; Update (filtered_data data)]
        ∨ sheet_calls (export_to_google_spreadsheet w data)
          = [Clear; AddWorksheet 1000 20; Update (filtered_data data)])
     ∧ length (filtered_data data) = length data).
Proof.
  unfold export_to_google_spreadsheet, add_sheet, write_frame.
  destruct w as [tc jl jd cr au un op wf cl wa up]. cbn.
  destruct tc, jl, jd, cr, au, un, op, wf, cl, wa, up; cbn;
    (split; [listed|]); intros H; try discriminate H;
    (split; [reflexivity|]); (split; [|apply length_fmap]); auto.
Qed.

(** The property at a run in which every call succeeds on an existing
    sheet. *)
Lemma export_writes_after_clear_or_create_witness :
  tempfile_left
    (export_to_google_spreadsheet
       {| tempfile_created := true; json_loaded := true; json_dumped := true;
          credentials_read := true; authorized := true; unlinked := true;
          opened := true; worksheet_found := Done; cleared := Done;
          worksheet_added := true; updated := true |}
       [format_item ∅])
  = false.
Proof.
  apply (proj2 (export_writes_after_clear_or_create _ _)). reflexivity.
Defined.

(** X21.  The temporary file that receives the service-account JSON is
    created with [delete=False] and removed only after the credentials
    were read and authorised: once it exists, a JSON text that does not
    parse, unreadable credentials or a refused authorisation leave it on
    disk, the function returns [False], and the spreadsheet is not
    touched. *)
Theorem export_leaves_tempfile_on_early_failure
        (w : sheet_world) (data : list (gmap str str)) :
  tempfile_created w = true →
  json_loaded w && credentials_read w && authorized w = false →
  tempfile_left (export_to_google_spreadsheet w data) = true
  ∧ returned (export_to_google_spreadsheet w data) = false
  ∧ sheet_calls (export_to_google_spreadsheet w data) = [].
Proof.
  intros Hcreated Hfail. unfold export_to_google_spreadsheet.
  rewrite Hcreated. cbn [negb].
  replace (json_loaded w && json_dumped w && credentials_read w
           && authorized w && unlinked w) with false; [done|].
  destruct (json_loaded w), (credentials_read w), (authorized w);
    try discriminate Hfail; now rewrite ?andb_false_r.
Qed.

(** The property at a run with a service-account text that is not JSON. *)
Lemma export_leaves_tempfile_on_early_failure_witness :
  tempfile_left
    (export_to_google_spreadsheet
       {| tempfile_created := true; json_loaded := false; json_dumped := true;
          credentials_read := true; authorized := true; unlinked := true;
          opened := true; worksheet_found := Done; cleared := Done;
          worksheet_added := true; updated := true |} [])
  = true
  ∧ returned
      (export_to_google_spreadsheet
         {| tempfile_created := true; json_loaded := false; json_dumped := true;
            credentials_read := true; authorized := true; unlinked := true;
            opened := true; worksheet_found := Done; cleared := Done;
            worksheet_added := true; updated := true |} [])
    = false
  ∧ sheet_calls
      (export_to_google_spreadsheet
         {| tempfile_created := true; json_loaded := false; json_dumped := true;
            credentials_read := true; authorized := true; unlinked := true;
            opened := true; worksheet_found := Done; cleared := Done;
            worksheet_added := true; updated := true |} [])
    = [].
Proof.
  apply export_leaves_tempfile_on_early_failure; reflexivity.
Defined.

(** ** Runs of [main] *)

Section SessionFacts.
Variable json_loads_ok : str → bool.

Lemma search_tab_ok (input : run_input) (state : session) :
  session_ok json_loads_ok state →
  ∃ state', search_tab input state = Returned state'
            ∧ session_ok json_loads_ok state'
            ∧ (search_pressed input = false → state' = state).
Proof.
  intros Hok. unfold search_tab.
  destruct (search_pressed input); cbn [negb]; [|now exists state].
  destruct (negb (Str.truthy _)); [now exists state|].
  destruct (negb (_ && _)); [now exists state|].
  destruct (search_google _ _) as [|r rs] eqn:E; [now exists state|].
  rewrite <- E, process_search_google_returns. cbn [and_then].
  eexists. split; [reflexivity|]. split; [|done].
  destruct Hok as (Hkeys & _ & _).
  split; [exact Hkeys|]. split; [reflexivity|]. cbn [search_results].
  apply (imap_Forall
           (λ result, Forall (λ key, is_Some (result !! key)) display_keys)).
  - intros i x. apply scan_candidate_complete.
  - apply search_google_complete.
Qed.

Lemma results_tab_ok (input : run_input) (state : session) :
  session_ok json_loads_ok state →
  ∃ state', results_tab input state = Returned state'
            ∧ session_ok json_loads_ok state'
            ∧ search_results state' = search_results state
            ∧ (search_results state ≠ [] →
               filtered_results state'
               = apply_filters (filter_instagram_box input)
                               (filter_tiktok_box input)
                               (filter_youtube_box input)
                               (filter_email_box input)
                               (search_results state)).
Proof.
  intros (Hkeys & Hsub & Hall). unfold results_tab.
  destruct (search_results state) as [|r rs] eqn:E.
  - exists state. split; [reflexivity|]. split; [|split; [exact E|]].
    + unfold session_ok. now rewrite E.
    + intros H. now destruct H.
  - rewrite <- E in *.
    assert (Hf : Forall (λ result,
                         Forall (λ key, is_Some (result !! key)) display_keys)
                   (apply_filters (filter_instagram_box input)
                      (filter_tiktok_box input) (filter_youtube_box input)
                      (filter_email_box input) (search_results state)))
      by (rewrite apply_filters_passes; now apply filter_Forall).
    assert (Hs : apply_filters (filter_instagram_box input)
                   (filter_tiktok_box input) (filter_youtube_box input)
                   (filter_email_box input) (search_results state)
                 `sublist_of` search_results state)
      by (rewrite apply_filters_passes; apply filter_is_sublist).
    destruct (detail_views_return _ 0 Hf) as (views & Ev & _).
    exists {| search_results := search_results state;
              filtered_results :=
                apply_filters (filter_instagram_box input)
                  (filter_tiktok_box input) (filter_youtube_box input)
                  (filter_email_box input) (search_results state);
              api_keys := api_keys state;
              csv_filename := csv_filename state |}.
    split.
    + rewrite Ev. now destruct (apply_filters _ _ _ _ _).
    + split; [|split; [reflexivity|intros _; reflexivity]].
      split; [exact Hkeys|]. split; [exact Hs|exact Hall].
Qed.

Lemma export_tab_ok (input : run_input) (state : session) :
  session_ok json_loads_ok state →
  session_ok json_loads_ok (export_tab input state)
  ∧ search_results (export_tab input state) = search_results state
  ∧ filtered_results (export_tab input state) = filtered_results state.
Proof.
  intros Hok. unfold export_tab.
  destruct (filtered_results state) as [|r rs] eqn:E;
    [split; [exact Hok|split; [reflexivity|exact E]]|].
  destruct Hok as (Hkeys & Hsub & Hall).
  split; [|split; reflexivity].
  split; [exact Hkeys|]. split; [|exact Hall].
  cbn [filtered_results search_results]. now rewrite <- E.
Qed.

Lemma run_main_ok (input : run_input) (state : session) :
  session_ok json_loads_ok state →
  ∃ state', run_main json_loads_ok input state = Returned state'
            ∧ session_ok json_loads_ok state'
            ∧ (search_pressed input = false →
               search_results state' = search_results state
               ∧ (search_results state ≠ [] →
                  filtered_results state'
                  = apply_filters (filter_instagram_box input)
                                  (filter_tiktok_box input)
                                  (filter_youtube_box input)
                                  (filter_email_box input)
                                  (search_results state))).
Proof.
  intros (Hkeys & Hsub & Hall). unfold run_main.
  match goal with
  | |- context [search_tab input ?s] =>
    destruct (search_tab_ok input s) as (s1 & E1 & Hok1 & Hsame)
  end.
  { split; [|split]; cbn; [now apply sidebar_step_ok|done|done]. }
  rewrite E1. cbn [and_then].
  destruct (results_tab_ok input s1 Hok1) as (s2 & E2 & Hok2 & Hres & Hfil).
  rewrite E2. cbn [and_then].
  destruct (export_tab_ok input s2 Hok2) as (Hok3 & Hres3 & Hfil3).
  eexists. split; [reflexivity|]. split; [exact Hok3|].
  intros Hnot. rewrite Hres3, Hfil3, Hres.
  rewrite (Hsame Hnot) in *. cbn [search_results] in *. split; [done|].
  exact Hfil.
Qed.
End SessionFacts.

(** X22.  Whatever the user enters and whatever the search API and the
    fetched sites answer, over any number of runs from a fresh session,
    [main] never ends in a [KeyError]; and after every run the stored
    credentials are usable, every search result holds the four display
    fields, and the list offered for export is the search results with
    some records left out, in the same order. *)
Theorem run_session_never_fails
        (json_loads_ok : str → bool) (inputs : list run_input) :
  ∃ state,
    run_session json_loads_ok inputs initial_session = Returned state
    ∧ session_ok json_loads_ok state.
Proof.
  assert (G : ∀ state,
             session_ok json_loads_ok state →
             ∃ state', run_session json_loads_ok inputs state = Returned state'
                       ∧ session_ok json_loads_ok state').
  { induction inputs as [|input inputs IH]; intros state Hok.
    - now exists state.
    - destruct (run_main_ok json_loads_ok input state Hok)
        as (s1 & E1 & Hok1 & _).
      cbn [run_session]. rewrite E1. cbn [and_then]. now apply IH. }
  apply G. split; [|split]; cbn; [|done|done].
  repeat split; done.
Qed.

(** X23.  Filtering is non-destructive: a run in which no search is
    started leaves the search results as they were, and when there are
    any, the filtered list is computed afresh from all of them, so
    unchecking a box brings the hidden records back. *)
Theorem filters_keep_search_results
        (json_loads_ok : str → bool) (input : run_input) (state : session) :
  session_ok json_loads_ok state →
  search_pressed input = false →
  ∃ state',
    run_main json_loads_ok input state = Returned state'
    ∧ search_results state' = search_results state
    ∧ (search_results state ≠ [] →
       filtered_results state'
       = apply_filters (filter_instagram_box input) (filter_tiktok_box input)
                       (filter_youtube_box input) (filter_email_box input)
                       (search_results state)).
Proof.
  intros Hok Hnot.
  destruct (run_main_ok json_loads_ok input state Hok) as (s & E & _ & H).
  exists s. split; [exact E|]. now apply H.
Qed.

(** The property at a session holding one record, with the Instagram box
    checked and no search started. *)
Lemma filters_keep_search_results_witness :
  ∃ state',
    run_main (λ _, true)
      {| google_api_key_input := []; google_cx_input := [];
         service_account_json_input := []; search_keywords := [];
         num_results_input := 20; search_categories := [];
         search_pressed := false;
         filter_instagram_box := true; filter_tiktok_box := false;
         filter_youtube_box := false; filter_email_box := false;
         csv_filename_input := pystr "out.csv";
         build_service := λ _ _ _, None;
         run_order := first_seen_order;
         run_fetch := λ _ _, Failed |}
      {| search_results := [format_item ∅]; filtered_results := [];
         api_keys := ∅; csv_filename := pystr "out.csv" |}
    = Returned state'
    ∧ search_results state' = [format_item ∅]
    ∧ ([format_item ∅] ≠ [] →
       filtered_results state'
       = apply_filters true false false false [format_item ∅]).
Proof.
  apply (filters_keep_search_results (λ _, true)
           {| google_api_key_input := []; google_cx_input := [];
              service_account_json_input := []; search_keywords := [];
              num_results_input := 20; search_categories := [];
              search_pressed := false;
              filter_instagram_box := true; filter_tiktok_box := false;
              filter_youtube_box := false; filter_email_box := false;
              csv_filename_input := pystr "out.csv";
              build_service := λ _ _ _, None;
              run_order := first_seen_order;
              run_fetch := λ _ _, Failed |}
           {| search_results := [format_item ∅]; filtered_results := [];
              api_keys := ∅; csv_filename := pystr "out.csv" |}).
  - split; [|split].
    + repeat split; done.
    + apply sublist_nil_l.
    + constructor; [apply format_item_complete|constructor].
  - reflexivity.
Defined.

Lemma search_tab_nothing_found (input : run_input) (state : session) :
  (∀ query key cx,
      search_google (build_service input query key cx)
                    (num_results_input input) = []) →
  search_tab input state = Returned state.
Proof.
  intros Hnone. unfold search_tab. rewrite Hnone.
  destruct (search_pressed input); cbn [negb]; [|reflexivity].
  destruct (negb (Str.truthy _)); [reflexivity|].
  now destruct (negb (_ && _)).
Qed.

(** X24.  A search that finds nothing, be it for lack of hits or because
    the API raised, costs nothing: the search results of the session stay
    as they were and the run goes on to show them. *)
Theorem empty_search_keeps_previous_results
        (json_loads_ok : str → bool) (input : run_input) (state : session) :
  session_ok json_loads_ok state →
  (∀ query key cx,
      search_google (build_service input query key cx)
                    (num_results_input input) = []) →
  ∃ state',
    run_main json_loads_ok input state = Returned state'
    ∧ search_results state' = search_results state.
Proof.
  intros (Hkeys & Hsub & Hall) Hnone. unfold run_main.
  rewrite search_tab_nothing_found by done. cbn [and_then].
  match goal with
  | |- context [results_tab input ?s] =>
    destruct (results_tab_ok json_loads_ok input s) as (s2 & E2 & Hok2 & Hres & _)
  end.
  { split; [|split]; cbn; [now apply sidebar_step_ok|done|done]. }
  rewrite E2. cbn [and_then].
  destruct (export_tab_ok json_loads_ok input s2 Hok2) as (_ & Hres3 & _).
  eexists. split; [reflexivity|]. now rewrite Hres3, Hres.
Qed.

(** The property at a run whose every API call raises. *)
Lemma empty_search_keeps_previous_results_witness :
  ∃ state',
    run_main (λ _, true)
      {| google_api_key_input := pystr "key"; google_cx_input := pystr "cx";
         service_account_json_input := []; search_keywords := pystr "yoga";
         num_results_input := 20; search_categories := [];
         search_pressed := true;
         filter_instagram_box := false; filter_tiktok_box := false;
         filter_youtube_box := false; filter_email_box := false;
         csv_filename_input := pystr "out.csv";
         build_service := λ _ _ _, Some (λ _, ApiError);
         run_order := first_seen_order;
         run_fetch := λ _ _, Failed |}
      {| search_results := [format_item ∅]; filtered_results := [];
         api_keys := ∅; csv_filename := pystr "out.csv" |}
    = Returned state'
    ∧ search_results state'
      = search_results
          {| search_results := [format_item ∅]; filtered_results := [];
             api_keys := ∅; csv_filename := pystr "out.csv" |}.
Proof.
  apply (empty_search_keeps_previous_results (λ _, true)).
  - split; [|split].
    + repeat split; done.
    + apply sublist_nil_l.
    + constructor; [apply format_item_complete|constructor].
  - intros query key cx. reflexivity.
Defined.
